(** * Hex-grid treasure hunt: the route-planning kernel

    A shallow embedding of the planning code of [map.py] (and of the
    duplicate search of [search.py]): the hexagonal adjacency
    [get_neighbors], the uniform-cost search [ucs] and the brute-force
    ordering search [find_best_treasure_path].

    Conventions of the embedding.
    - A cell is the Python tuple [(r, c)] of two integers.
    - A tile is the Python string stored in the grid.
    - Costs are Python floats that are sums of 0.5, 1.0 and 2.0.  Such sums
      are exact in binary floating point, so a cost [x] is stored as the
      integer [2 * x] (a count of halves): 1.0 is [2], 2.0 is [4], 0.5 is
      [1].  [float('inf')] is the separate value [Infinity].
    - Python exceptions are explicit results ([Raise]); loops run on fuel
      and a loop that exhausts it yields [OutOfFuel], which the theorems
      below show never happens. *)

From Stdlib Require Import ZArith List Lia Sorted.
From stdpp Require Import gmap strings list fin_maps.

Local Open Scope Z_scope.

(** ** Results of Python computations *)

Inductive exn : Type := IndexError | KeyError.

Inductive res (A : Type) : Type :=
  | Ret (a : A)
  | Raise (e : exn)
  | OutOfFuel.
Arguments Ret {A} a.
Arguments Raise {A} e.
Arguments OutOfFuel {A}.

#[global] Instance res_bind : MBind res := λ A B k m,
  match m with
  | Ret a => k a
  | Raise e => Raise e
  | OutOfFuel => OutOfFuel
  end.

#[global] Instance res_ret : MRet res := λ A a, Ret a.

#[global] Instance res_fmap : FMap res := λ A B f m,
  match m with
  | Ret a => Ret (f a)
  | Raise e => Raise e
  | OutOfFuel => OutOfFuel
  end.

(** ** Map definitions ([map.py], lines 8-26) *)

Abbreviation cell := (Z * Z)%type.

Definition START : string := "S"%string.
Definition TREASURE : string := "T"%string.
Definition BLOCKED : string := "#"%string.
Definition TRAPS : list string := ["X1"; "X2"; "X3"; "X4"]%string.
Definition REWARDS : list string := ["R1"; "R2"]%string.
Definition EMPTY : string := EmptyString.

(** [l[i]] on a Python list: a negative index counts from the end, an index
    out of range raises [IndexError]. *)
Definition py_index {A : Type} (l : list A) (i : Z) : res A :=
  let n := Z.of_nat (length l) in
  let j := if i <? 0 then i + n else i in
  if (0 <=? j) && (j <? n) then
    match l !! Z.to_nat j with
    | Some x => Ret x
    | None => Raise IndexError
    end
  else Raise IndexError.

(** [tile in TRAPS], [tile in REWARDS]. *)
Definition py_in (tile : string) (l : list string) : bool :=
  existsb (String.eqb tile) l.

(** ** Costs *)

(** A float cost, counted in halves, or [float('inf')]. *)
Inductive cost : Type :=
  | Finite (halves : Z)
  | Infinity.

(** [a + b] on costs. *)
Definition cost_add (a b : cost) : cost :=
  match a, b with
  | Finite x, Finite y => Finite (x + y)
  | _, _ => Infinity
  end.

(** [a < b] on costs. *)
Definition cost_ltb (a b : cost) : bool :=
  match a, b with
  | Finite x, Finite y => x <? y
  | Finite _, Infinity => true
  | Infinity, _ => false
  end.

(** The step cost of [map.py], lines 171-177: base cost 1.0, doubled on a
    trap, halved on a reward. *)
Definition step_cost (tile : string) : Z :=
  let step_cost := 2 in
  if py_in tile TRAPS then step_cost * 2
  else if py_in tile REWARDS then step_cost / 2
  else step_cost.

(** The step cost of [search.py], lines 48-53. *)
Definition step_cost_search (tile : string) : Z :=
  let step_cost := 2 in
  if String.eqb tile "X1" || String.eqb tile "X2" then step_cost * 2
  else if String.eqb tile "R1" || String.eqb tile "R2" then step_cost / 2
  else step_cost.

(** ** The library functions the planner uses *)

(** [heapq] on a list of [(cost, position)] tuples.  Python compares the
    tuples lexicographically, which is a total order, so the sequence of
    popped entries depends only on the entries pushed: the heap is kept as
    the sorted list of its entries, and [heappop] takes the head. *)
Module heapq.

Definition entry_leb (a b : Z * cell) : bool :=
  (a.1 <? b.1) ||
  ((a.1 =? b.1) &&
   ((a.2.1 <? b.2.1) || ((a.2.1 =? b.2.1) && (a.2.2 <=? b.2.2)))).

Fixpoint heappush (h : list (Z * cell)) (e : Z * cell) : list (Z * cell) :=
  match h with
  | [] => [e]
  | x :: h' => if entry_leb e x then e :: x :: h' else x :: heappush h' e
  end.

Definition heappop (h : list (Z * cell)) : option ((Z * cell) * list (Z * cell)) :=
  match h with
  | [] => None
  | e :: h' => Some (e, h')
  end.

End heapq.

(** [itertools.permutations]: the orderings of a list in the order Python
    yields them, lexicographic in the positions of the elements. *)
Module itertools.

(** Every element of [l] with the list of the others, by position. *)
Fixpoint picks {A : Type} (l : list A) : list (A * list A) :=
  match l with
  | [] => []
  | x :: l' => (x, l') :: map (λ yr, (yr.1, x :: yr.2)) (picks l')
  end.

Fixpoint perms_of_len {A : Type} (n : nat) (l : list A) : list (list A) :=
  match n with
  | O => [[]]
  | S n' => flat_map (λ xr, map (cons xr.1) (perms_of_len n' xr.2)) (picks l)
  end.

Definition permutations {A : Type} (l : list A) : list (list A) :=
  perms_of_len (length l) l.

End itertools.

(** ** The state of a search *)

Record ucs_state : Type := UcsState {
  open_set : list (Z * cell);
  came_from : gmap cell cell;
  cost_so_far : gmap cell Z
}.

Section Grid.

(** The grid is a module-level constant of the program; the development is
    parametric in it. *)
Variable grid : list (list string).

(** [ROWS, COLS = len(grid), len(grid[0])]. *)
Definition ROWS : Z := Z.of_nat (length grid).
Definition COLS : Z :=
  match grid with
  | [] => 0
  | row :: _ => Z.of_nat (length row)
  end.

(** [grid[r][c]]. *)
Definition grid_at (r c : Z) : res string :=
  row ← py_index grid r; py_index row c.

(** Every row has the length of the first one. *)
Definition rectangular : Prop := Forall (λ row, Z.of_nat (length row) = COLS) grid.

#[global] Instance rectangular_dec : Decision rectangular.
Proof. unfold rectangular. apply _. Defined.

(** *** [get_neighbors] ([map.py], lines 98-107) *)

(** The list [dirs] built on lines 100-101. *)
Definition dirs (c : Z) : list (Z * Z) :=
  let even := c mod 2 =? 0 in
  [(-1, 0); (1, 0); (0, -1); (0, 1)] ++
  (if even
   then [((if even then -1 else 0), -1); ((if even then -1 else 0), 1)]
   else [(1, -1); (1, 1)]).

(** [0 <= nr < ROWS and 0 <= nc < COLS]. *)
Definition in_bounds (p : cell) : bool :=
  (0 <=? p.1) && (p.1 <? ROWS) && (0 <=? p.2) && (p.2 <? COLS).

(** The loop of lines 103-106, with [neighbors] as accumulator. *)
Fixpoint scan_dirs (r c : Z) (ds : list (Z * Z)) (neighbors : list cell)
  : res (list cell) :=
  match ds with
  | [] => Ret neighbors
  | (dr, dc) :: ds' =>
      let nr := r + dr in
      let nc := c + dc in
      if in_bounds (nr, nc) then
        tile ← grid_at nr nc;
        if negb (String.eqb tile BLOCKED)
        then scan_dirs r c ds' (neighbors ++ [(nr, nc)])
        else scan_dirs r c ds' neighbors
      else scan_dirs r c ds' neighbors
  end.

Definition get_neighbors (p : cell) : res (list cell) :=
  scan_dirs p.1 p.2 (dirs p.2) [].

(** The tile of an in-bounds cell, [EMPTY] elsewhere (never read there). *)
Definition tile_of (p : cell) : string :=
  match grid_at p.1 p.2 with
  | Ret t => t
  | _ => EMPTY
  end.

Definition blocked (p : cell) : bool := String.eqb (tile_of p) BLOCKED.

(** [q] is one of the cells [get_neighbors p] returns. *)
Definition adjacent (p q : cell) : bool :=
  match get_neighbors p with
  | Ret l => bool_decide (q ∈ l)
  | _ => false
  end.

(** *** [ucs] ([map.py], lines 153-185; [search.py], lines 28-61)

    The two functions differ in the step cost only; [sc] is that step
    cost, in halves. *)

Section Ucs.

Variable sc : string → Z.

(** [neighbor not in cost_so_far or new_cost < cost_so_far[neighbor]]. *)
Definition improves (new_cost : Z) (old : option Z) : bool :=
  match old with
  | None => true
  | Some c => new_cost <? c
  end.

(** The body of the loop over the neighbours (lines 170-183). *)
Definition relax (current_cost : Z) (current : cell) (st : ucs_state) (neighbor : cell)
  : res ucs_state :=
  tile ← grid_at neighbor.1 neighbor.2;
  let new_cost := current_cost + sc tile in
  if improves new_cost (cost_so_far st !! neighbor) then
    Ret {| open_set := heapq.heappush (open_set st) (new_cost, neighbor);
           came_from := <[neighbor := current]> (came_from st);
           cost_so_far := <[neighbor := new_cost]> (cost_so_far st) |}
  else Ret st.

Fixpoint relax_all (current_cost : Z) (current : cell) (neighbors : list cell)
  (st : ucs_state) : res ucs_state :=
  match neighbors with
  | [] => Ret st
  | neighbor :: rest =>
      st' ← relax current_cost current st neighbor;
      relax_all current_cost current rest st'
  end.

(** The loop of lines 163-165: follow [came_from] from the goal. *)
Fixpoint walk_back (fuel : nat) (cf : gmap cell cell) (current : cell) (path : list cell)
  : res (list cell) :=
  match fuel with
  | O => OutOfFuel
  | S fuel' =>
      match cf !! current with
      | Some previous => walk_back fuel' cf previous (path ++ [current])
      | None => Ret path
      end
  end.

(** The main loop (lines 158-185). *)
Fixpoint ucs_loop (fuel : nat) (goal : cell) (st : ucs_state) : res (list cell * cost) :=
  match fuel with
  | O => OutOfFuel
  | S fuel' =>
      match heapq.heappop (open_set st) with
      | None => Ret ([], Infinity)
      | Some ((current_cost, current), rest) =>
          if decide (current = goal) then
            path ← walk_back (S (size (came_from st))) (came_from st) current [];
            match cost_so_far st !! goal with
            | Some c => Ret (rev path, Finite c)
            | None => Raise KeyError
            end
          else
            neighbors ← get_neighbors current;
            st' ← relax_all current_cost current neighbors
                    {| open_set := rest;
                       came_from := came_from st;
                       cost_so_far := cost_so_far st |};
            ucs_loop fuel' goal st'
      end
  end.

(** Iterations that suffice on this grid. *)
Definition ucs_fuel : nat := Z.to_nat (6 * (ROWS * COLS + 1) + 2).

Definition ucs_init (start : cell) : ucs_state :=
  {| open_set := [(0, start)]; came_from := ∅; cost_so_far := {[start := 0]} |}.

Definition ucs_with (start goal : cell) : res (list cell * cost) :=
  ucs_loop ucs_fuel goal (ucs_init start).

End Ucs.

(** [ucs] of [map.py]. *)
Definition ucs : cell → cell → res (list cell * cost) := ucs_with step_cost.

(** [ucs] of [search.py]. *)
Definition ucs_search : cell → cell → res (list cell * cost) := ucs_with step_cost_search.

(** *** [find_best_treasure_path] ([map.py], lines 112-150)

    [search] is the single-pair search the planner calls. *)

Section Planner.

Variable search : cell → cell → res (list cell * cost).

(** The loop over the targets of one ordering (lines 127-134): [None] when
    it breaks with [valid = False]. *)
Fixpoint visit (order : list cell) (current_pos : cell) (total_path : list cell)
  (total_cost : cost) : res (option (cell * list cell * cost)) :=
  match order with
  | [] => Ret (Some (current_pos, total_path, total_cost))
  | target :: rest =>
      pc ← search current_pos target;
      match pc.1 with
      | [] => Ret None
      | _ :: _ => visit rest target (total_path ++ pc.1) (cost_add total_cost pc.2)
      end
  end.

(** One ordering (lines 121-143): its path and cost, [None] when invalid. *)
Definition try_order (start_pos : cell) (return_to_start : bool) (order : list cell)
  : res (option (list cell * cost)) :=
  r ← visit order start_pos [] (Finite 0);
  match r with
  | None => Ret None
  | Some (current_pos, total_path, total_cost) =>
      if return_to_start then
        pc ← search current_pos start_pos;
        match pc.1 with
        | [] => Ret None
        | _ :: _ => Ret (Some (total_path ++ pc.1, cost_add total_cost pc.2))
        end
      else Ret (Some (total_path, total_cost))
  end.

(** The loop over the orderings (lines 120-148). *)
Fixpoint best_of (start_pos : cell) (return_to_start : bool) (orders : list (list cell))
  (best_path : list cell) (min_total_cost : cost) : res (list cell) :=
  match orders with
  | [] => Ret best_path
  | order :: rest =>
      r ← try_order start_pos return_to_start order;
      match r with
      | Some (total_path, total_cost) =>
          if cost_ltb total_cost min_total_cost
          then best_of start_pos return_to_start rest total_path total_cost
          else best_of start_pos return_to_start rest best_path min_total_cost
      | None => best_of start_pos return_to_start rest best_path min_total_cost
      end
  end.

Definition find_best_treasure_path_with (start_pos : cell) (treasures : list cell)
  (return_to_start : bool) : res (list cell) :=
  match treasures with
  | [] => Ret []
  | _ :: _ =>
      best_of start_pos return_to_start (itertools.permutations treasures) [] Infinity
  end.

End Planner.

Definition find_best_treasure_path : cell → list cell → bool → res (list cell) :=
  find_best_treasure_path_with ucs.

(** *** Walks on the grid *)

(** [path] is a sequence of moves from [from], each to a neighbour. *)
Fixpoint is_walk (from : cell) (path : list cell) : bool :=
  match path with
  | [] => true
  | q :: rest => adjacent from q && is_walk q rest
  end.

(** The sum of the step costs of the cells of [path]. *)
Definition path_cost (sc : string → Z) (path : list cell) : Z :=
  foldr (λ q acc, sc (tile_of q) + acc) 0 path.

(** [path] leads from [start] to [goal]. *)
Definition leads (start goal : cell) (path : list cell) : Prop :=
  is_walk start path = true ∧ List.last path start = goal.

Definition reachable (start goal : cell) : Prop :=
  ∃ path, leads start goal path.

(** A cell the loop of [get_neighbors] keeps. *)
Definition passable (p : cell) : bool := in_bounds p && negb (blocked p).

Definition shift (p : cell) (d : Z * Z) : cell := (p.1 + d.1, p.2 + d.2).

(** The neighbours as a pure list. *)
Definition nbrs (p : cell) : list cell :=
  filter (λ q, passable q = true) (map (shift p) (dirs p.2)).

(** *** The route of an ordering, as the specification words it *)

(** The result of one single-pair search. *)
Definition shortest_path (a b : cell) : list cell * cost :=
  match ucs a b with
  | Ret pc => pc
  | _ => ([], Infinity)
  end.

(** Chain the searches from [pos] through [stops]: concatenate the segment
    paths and sum the segment costs; no route if a segment is empty. *)
Fixpoint spec_route_from (pos : cell) (stops : list cell) : option (list cell * cost) :=
  match stops with
  | [] => Some ([], Finite 0)
  | t :: rest =>
      match (shortest_path pos t).1 with
      | [] => None
      | _ :: _ =>
          match spec_route_from t rest with
          | None => None
          | Some pc => Some ((shortest_path pos t).1 ++ pc.1,
                             cost_add (shortest_path pos t).2 pc.2)
          end
      end
  end.

(** From the start to the first target, from each target to the next, and
    back to the start when [return_to_start] is set. *)
Definition spec_route (start : cell) (return_to_start : bool) (order : list cell)
  : option (list cell * cost) :=
  spec_route_from start (order ++ if return_to_start then [start] else []).

(** The candidate cells of the hexagonal rule as the specification words
    it: the four cardinal cells, then the two diagonals of the parity of the
    column. *)
Definition hex_candidates (p : cell) : list cell :=
  [(p.1 - 1, p.2); (p.1 + 1, p.2); (p.1, p.2 - 1); (p.1, p.2 + 1)] ++
  (if Z.even p.2
   then [(p.1 - 1, p.2 - 1); (p.1 - 1, p.2 + 1)]
   else [(p.1 + 1, p.2 - 1); (p.1 + 1, p.2 + 1)]).

(** No cell of the grid holds one of the traps 'X3' and 'X4'. *)
Definition no_x3_x4 : Prop :=
  Forall (Forall (λ tile : string, tile ≠ "X3"%string ∧ tile ≠ "X4"%string)) grid.

(** *** The invariant of the search

    The proof follows the classical argument for Dijkstra's algorithm.  The
    code keeps no set of settled cells; the proof does, as the list [K] of
    the cells popped while their entry was current. *)

(** The entries of the heap are in non-decreasing order of cost. *)
Definition cost_sorted (h : list (Z * cell)) : Prop :=
  StronglySorted (λ a b : Z * cell, a.1 <= b.1) h.

Section Invariant.

Variable sc : string → Z.
Variables start goal : cell.

(** The cost of entering a cell. *)
Definition enter_cost (q : cell) : Z := sc (tile_of q).

(** The edge from [u] to [n] cannot improve the recorded cost of [n]. *)
Definition relaxed (st : ucs_state) (u n : cell) : Prop :=
  ∃ du dn, cost_so_far st !! u = Some du ∧ cost_so_far st !! n = Some dn ∧
           dn <= du + enter_cost n.

Record core (K : list cell) (st : ucs_state) : Prop := {
  core_start : cost_so_far st !! start = Some 0;
  core_start_cf : came_from st !! start = None;
  core_nonneg : ∀ v dv, cost_so_far st !! v = Some dv → 0 <= dv;
  core_cf : ∀ v u, came_from st !! v = Some u →
      u ∈ K ∧ v ∈ nbrs u ∧
      ∃ du, cost_so_far st !! u = Some du ∧
            cost_so_far st !! v = Some (du + enter_cost v);
  core_dom : ∀ v, is_Some (cost_so_far st !! v) → v = start ∨ is_Some (came_from st !! v);
  core_heap : ∀ c v, (c, v) ∈ open_set st →
      ∃ dv, cost_so_far st !! v = Some dv ∧ dv <= c;
  core_open : ∀ v dv, cost_so_far st !! v = Some dv → v ∉ K → (dv, v) ∈ open_set st;
  core_closed : ∀ u, u ∈ K →
      ∃ du, cost_so_far st !! u = Some du ∧ ∀ c v, (c, v) ∈ open_set st → du <= c;
  core_sorted : cost_sorted (open_set st);
  core_nodup : NoDup K;
  core_region : ∀ u, u ∈ K → u = start ∨ in_bounds u = true;
  core_goal : goal ∉ K
}.

(** Between two iterations: every edge out of a settled cell is relaxed. *)
Definition inv (K : list cell) (st : ucs_state) : Prop :=
  core K st ∧ ∀ u n, u ∈ K → n ∈ nbrs u → relaxed st u n.

(** Inside the loop over the neighbours of [u], popped at cost [c]: the
    neighbours in [todo] are still to be relaxed. *)
Definition inv_relaxing (K : list cell) (c : Z) (u : cell) (todo : list cell)
  (st : ucs_state) : Prop :=
  core K st ∧ u ∈ K ∧ cost_so_far st !! u = Some c ∧
  (∀ x, x ∈ K → ∃ dx, cost_so_far st !! x = Some dx ∧ dx <= c) ∧
  (∀ x n, x ∈ K → n ∈ nbrs x → (x = u ∧ n ∈ todo) ∨ relaxed st x n).

(** The cells a search from [start] can settle. *)
Definition region : list cell :=
  start :: list_prod (seqZ 0 ROWS) (seqZ 0 COLS).

(** What is left to do: the pending entries, and six pushes for every cell
    not settled yet. *)
Definition potential (K : list cell) (st : ucs_state) : Z :=
  Z.of_nat (length (open_set st)) + 6 * (Z.of_nat (length region) - Z.of_nat (length K)).

End Invariant.

Arguments core_start {sc start goal K st} _.
Arguments core_start_cf {sc start goal K st} _.
Arguments core_nonneg {sc start goal K st} _.
Arguments core_cf {sc start goal K st} _.
Arguments core_dom {sc start goal K st} _.
Arguments core_heap {sc start goal K st} _.
Arguments core_open {sc start goal K st} _.
Arguments core_closed {sc start goal K st} _.
Arguments core_sorted {sc start goal K st} _.
Arguments core_nodup {sc start goal K st} _.
Arguments core_region {sc start goal K st} _.
Arguments core_goal {sc start goal K st} _.

(** *** Facts on the grid *)

Hypothesis grid_rect : rectangular.

Lemma grid_at_in_bounds p :
  in_bounds p = true → ∃ tile, grid_at p.1 p.2 = Ret tile.
Proof.
  destruct p as [r c]. unfold in_bounds, grid_at, py_index, ROWS. simpl.
  intros Hb.
  assert (Hr : 0 <= r < Z.of_nat (length grid)) by (unfold ROWS in Hb; lia).
  assert (Hc : 0 <= c < COLS) by lia.
  destruct (r <? 0) eqn:Hneg; [lia|].
  replace ((0 <=? r) && (r <? Z.of_nat (length grid))) with true by lia.
  destruct (grid !! Z.to_nat r) as [row|] eqn:Hrow.
  - simpl.
    assert (Hlen : Z.of_nat (length row) = COLS).
    { eapply (proj1 (Forall_forall _ _) grid_rect), list_elem_of_lookup_2, Hrow. }
    destruct (c <? 0) eqn:Hneg'; [lia|].
    replace ((0 <=? c) && (c <? Z.of_nat (length row))) with true by lia.
    destruct (row !! Z.to_nat c) as [t|] eqn:Ht; [eauto|].
    apply lookup_ge_None in Ht. lia.
  - apply lookup_ge_None in Hrow. lia.
Qed.

Lemma grid_at_tile_of r c : in_bounds (r, c) = true → grid_at r c = Ret (tile_of (r, c)).
Proof.
  intros Hb. destruct (grid_at_in_bounds (r, c) Hb) as [t Ht].
  unfold tile_of. simpl in *. by rewrite Ht.
Qed.

Lemma scan_dirs_filter r c ds acc :
  scan_dirs r c ds acc = Ret (acc ++ filter (λ q, passable q = true) (map (shift (r, c)) ds)).
Proof.
  revert acc. induction ds as [|[dr dc] ds IH]; intros acc; simpl.
  - by rewrite app_nil_r.
  - rewrite filter_cons. change (shift (r, c) (dr, dc)) with (r + dr, c + dc).
    destruct (decide (passable (r + dr, c + dc) = true)) as [Hp|Hp].
    + apply andb_true_iff in Hp as [Hb Hnb]. rewrite Hb.
      rewrite (grid_at_tile_of _ _ Hb). simpl.
      unfold blocked in Hnb. rewrite Hnb. rewrite IH. by rewrite <- app_assoc.
    + destruct (in_bounds (r + dr, c + dc)) eqn:Hb; [|apply IH].
      rewrite (grid_at_tile_of _ _ Hb). simpl.
      destruct (negb (String.eqb (tile_of (r + dr, c + dc)) BLOCKED)) eqn:Hnb; [|apply IH].
      exfalso. apply Hp. unfold passable, blocked. by rewrite Hb, Hnb.
Qed.

Lemma get_neighbors_nbrs p : get_neighbors p = Ret (nbrs p).
Proof.
  destruct p as [r c]. unfold get_neighbors, nbrs.
  by rewrite scan_dirs_filter.
Qed.

Lemma dirs_hex_candidates p : map (shift p) (dirs p.2) = hex_candidates p.
Proof.
  destruct p as [r c]. unfold dirs, hex_candidates, shift. simpl.
  rewrite (Zmod_even c).
  destruct (Z.even c); simpl; repeat f_equal; lia.
Qed.

Lemma nbrs_hex_candidates p :
  nbrs p = filter (λ q, passable q = true) (hex_candidates p).
Proof. unfold nbrs. by rewrite dirs_hex_candidates. Qed.

Lemma passable_spec q :
  passable q = true ↔ in_bounds q = true ∧ tile_of q ≠ BLOCKED.
Proof.
  unfold passable, blocked. rewrite andb_true_iff, negb_true_iff.
  by rewrite <- String.eqb_neq.
Qed.

Lemma hex_candidates_length p : length (hex_candidates p) = 6%nat.
Proof. unfold hex_candidates. by destruct (Z.even p.2). Qed.

(** The candidate relation is symmetric, whatever the parities. *)
Lemma hex_candidates_sym a b : b ∈ hex_candidates a → a ∈ hex_candidates b.
Proof.
  destruct a as [ra ca], b as [rb cb]. unfold hex_candidates. simpl.
  pose proof (Zmod_even ca) as Ea. pose proof (Zmod_even cb) as Eb.
  destruct (Z.even ca), (Z.even cb); simpl;
    rewrite !elem_of_cons, !elem_of_nil;
    intros H; decompose [or] H; clear H; try done;
    match goal with Heq : (_, _) = (_, _) |- _ => injection Heq as ? ? end;
    subst; try (exfalso; Z.div_mod_to_equations; lia).
  all: repeat first [ left; f_equal; lia | right ].
Qed.

(** C4: [get_neighbors] returns the cells of the parity-dependent hexagonal
    rule (four cardinal candidates, two diagonals above for an even column,
    below for an odd one) that are in bounds and not blocked, in the order
    of the rule; none of the returned cells is blocked or out of bounds,
    and there are at most six. *)
Theorem get_neighbors_hex_rule (p : cell) :
  ∃ l, get_neighbors p = Ret l ∧
       l = filter (λ q, in_bounds q = true ∧ tile_of q ≠ BLOCKED) (hex_candidates p) ∧
       (∀ q, q ∈ l ↔ q ∈ hex_candidates p ∧ in_bounds q = true ∧ tile_of q ≠ BLOCKED) ∧
       (length l ≤ 6)%nat.
Proof.
  exists (nbrs p). split; [apply get_neighbors_nbrs|].
  assert (Heq : nbrs p =
    filter (λ q, in_bounds q = true ∧ tile_of q ≠ BLOCKED) (hex_candidates p)).
  { rewrite nbrs_hex_candidates. apply list_filter_iff. intros q. apply passable_spec. }
  split; [done|]. split.
  - intros q. rewrite Heq, list_elem_of_filter. tauto.
  - rewrite Heq. etrans; [apply length_filter|]. by rewrite hex_candidates_length.
Qed.

Lemma elem_of_nbrs p q : q ∈ nbrs p ↔ passable q = true ∧ q ∈ hex_candidates p.
Proof. by rewrite nbrs_hex_candidates, list_elem_of_filter. Qed.

(** C3: adjacency is symmetric: for in-bounds, non-blocked cells [a] and
    [b], [b] is among [get_neighbors a] exactly when [a] is among
    [get_neighbors b]. *)
Theorem get_neighbors_symmetric (a b : cell) :
  in_bounds a = true → in_bounds b = true →
  tile_of a ≠ BLOCKED → tile_of b ≠ BLOCKED →
  ∃ la lb, get_neighbors a = Ret la ∧ get_neighbors b = Ret lb ∧ (b ∈ la ↔ a ∈ lb).
Proof.
  intros Ha Hb Hta Htb. exists (nbrs a), (nbrs b).
  split; [apply get_neighbors_nbrs|]. split; [apply get_neighbors_nbrs|].
  assert (Hpa : passable a = true) by by apply passable_spec.
  assert (Hpb : passable b = true) by by apply passable_spec.
  rewrite !elem_of_nbrs. split; intros [_ H]; (split; [done|]);
    by apply hex_candidates_sym.
Qed.

(** *** The degenerate search and the shape of a result *)

Lemma ucs_fuel_succ : ∃ n, ucs_fuel = S n.
Proof.
  unfold ucs_fuel, ROWS, COLS.
  exists (Z.to_nat (6 * (ROWS * COLS + 1) + 1)). unfold ROWS, COLS.
  destruct grid as [|row rows]; simpl length; nia.
Qed.

Lemma ucs_with_same sc (s : cell) : ucs_with sc s s = Ret ([], Finite 0).
Proof.
  unfold ucs_with. destruct ucs_fuel_succ as [n ->]. simpl.
  rewrite decide_True by done. simpl.
  by rewrite lookup_empty, lookup_singleton_eq.
Qed.

Lemma ucs_same (s : cell) : ucs s s = Ret ([], Finite 0).
Proof. apply ucs_with_same. Qed.

(** C6: a search from a cell to itself returns the empty path with cost 0. *)
Theorem ucs_start_is_goal (s : cell) : ucs s s = Ret ([], Finite 0).
Proof. apply ucs_with_same. Qed.

Lemma ucs_loop_S sc fuel goal st :
  ucs_loop sc (S fuel) goal st =
  match heapq.heappop (open_set st) with
  | None => Ret ([], Infinity)
  | Some ((current_cost, current), rest) =>
      if decide (current = goal) then
        path ← walk_back (S (size (came_from st))) (came_from st) current [];
        match cost_so_far st !! goal with
        | Some c => Ret (rev path, Finite c)
        | None => Raise KeyError
        end
      else
        neighbors ← get_neighbors current;
        st' ← relax_all sc current_cost current neighbors
                {| open_set := rest;
                   came_from := came_from st;
                   cost_so_far := cost_so_far st |};
        ucs_loop sc fuel goal st'
  end.
Proof. done. Qed.

(** A returned pair is the sentinel or has a finite cost. *)
Lemma ucs_loop_shape sc fuel goal st path c :
  ucs_loop sc fuel goal st = Ret (path, c) →
  (path = [] ∧ c = Infinity) ∨ ∃ z, c = Finite z.
Proof.
  revert st. induction fuel as [|fuel IH]; intros st; [done|].
  rewrite ucs_loop_S.
  destruct (heapq.heappop (open_set st)) as [[[cc cur] rest]|]; [|naive_solver].
  destruct (decide (cur = goal)) as [->|Hne].
  - destruct (walk_back _ _ _ _); simpl; try done.
    destruct (cost_so_far st !! goal); naive_solver.
  - destruct (get_neighbors cur); simpl; try done.
    destruct (relax_all _ _ _ _ _); simpl; try done. apply IH.
Qed.

Lemma ucs_shape s t path c :
  ucs s t = Ret (path, c) → (path = [] ∧ c = Infinity) ∨ ∃ z, c = Finite z.
Proof. apply ucs_loop_shape. Qed.

(** *** The planner on no target and on one target *)

(** C8: on an empty target list the planner returns the empty path, as a
    value and not as an error, and calls no search: the result is the same
    whatever the search function is, one that raises included. *)
Theorem find_best_treasure_path_empty (start : cell) (return_to_start : bool) :
  find_best_treasure_path start [] return_to_start = Ret [] ∧
  ∀ search, find_best_treasure_path_with search start [] return_to_start = Ret [].
Proof. done. Qed.

(** C7: on a single target the planner returns the path component of the
    search from the start to that target (the empty path when the target
    is unreachable). *)
Theorem find_best_treasure_path_single (s t : cell) :
  find_best_treasure_path s [t] false = fst <$> ucs s t.
Proof.
  unfold find_best_treasure_path, find_best_treasure_path_with. simpl.
  unfold try_order. simpl.
  destruct (ucs s t) as [[path c]| |] eqn:Hu; simpl; try done.
  destruct path as [|q path]; simpl; [done|].
  destruct (ucs_shape _ _ _ _ Hu) as [[? _]|[z ->]]; [done|].
  done.
Qed.

(** *** The two searches *)

Lemma py_index_elem {A : Type} (l : list A) i x : py_index l i = Ret x → x ∈ l.
Proof.
  unfold py_index. destruct (_ && _); [|done].
  destruct (l !! _) as [y|] eqn:Hy; [|done].
  intros [= ->]. by eapply list_elem_of_lookup_2.
Qed.

Lemma grid_at_elem r c tile :
  grid_at r c = Ret tile → ∃ row, row ∈ grid ∧ tile ∈ row.
Proof.
  unfold grid_at. destruct (py_index grid r) as [row| |] eqn:Hrow; simpl; try done.
  intros Ht. exists row. eauto using py_index_elem.
Qed.

Section SameSearch.

Variables sc1 sc2 : string → Z.
Hypothesis sc_agree : ∀ row tile, row ∈ grid → tile ∈ row → sc1 tile = sc2 tile.

Lemma relax_agree cc cur st n : relax sc1 cc cur st n = relax sc2 cc cur st n.
Proof.
  unfold relax. destruct (grid_at n.1 n.2) as [tile| |] eqn:Ht; simpl; try done.
  destruct (grid_at_elem _ _ _ Ht) as (row & Hrow & Htile).
  by rewrite (sc_agree row tile).
Qed.

Lemma relax_all_agree cc cur ns st :
  relax_all sc1 cc cur ns st = relax_all sc2 cc cur ns st.
Proof.
  revert st. induction ns as [|n ns IH]; intros st; simpl; [done|].
  rewrite relax_agree. destruct (relax sc2 cc cur st n); simpl; auto.
Qed.

Lemma ucs_loop_agree fuel goal st :
  ucs_loop sc1 fuel goal st = ucs_loop sc2 fuel goal st.
Proof.
  revert st. induction fuel as [|fuel IH]; intros st; [done|].
  rewrite !ucs_loop_S.
  destruct (heapq.heappop (open_set st)) as [[[cc cur] rest]|]; [|done].
  destruct (decide (cur = goal)); [done|].
  destruct (get_neighbors cur) as [ns| |]; simpl; try done.
  rewrite relax_all_agree. destruct (relax_all sc2 _ _ _ _); simpl; auto.
Qed.

End SameSearch.

Lemma step_cost_search_agree tile :
  tile ≠ "X3"%string → tile ≠ "X4"%string → step_cost_search tile = step_cost tile.
Proof.
  intros H3 H4. apply String.eqb_neq in H3, H4.
  unfold step_cost_search, step_cost, py_in, TRAPS, REWARDS. simpl.
  rewrite H3, H4. simpl.
  by destruct (String.eqb tile "X1"), (String.eqb tile "X2"),
    (String.eqb tile "R1"), (String.eqb tile "R2").
Qed.

Lemma step_cost_doubled tile : step_cost tile = 4 ↔ tile ∈ TRAPS.
Proof.
  unfold step_cost, py_in, TRAPS, REWARDS. simpl.
  rewrite !elem_of_cons, elem_of_nil, <- !String.eqb_eq.
  destruct (String.eqb tile "X1"), (String.eqb tile "X2"),
    (String.eqb tile "X3"), (String.eqb tile "X4"),
    (String.eqb tile "R1"), (String.eqb tile "R2"); vm_compute; intuition congruence.
Qed.

Lemma step_cost_search_doubled tile :
  step_cost_search tile = 4 ↔ tile = "X1"%string ∨ tile = "X2"%string.
Proof.
  unfold step_cost_search. rewrite <- !String.eqb_eq.
  destruct (String.eqb tile "X1"), (String.eqb tile "X2"),
    (String.eqb tile "R1"), (String.eqb tile "R2"); vm_compute; intuition congruence.
Qed.

(** C10: on a grid without 'X3' and 'X4' tiles the search of [search.py]
    returns the same pair as the search of [map.py], for every start and
    goal.  The two searches differ in the trap test only: [search.py]
    doubles the step cost on 'X1' and 'X2', [map.py] on the four trap
    kinds, and the step costs agree on every other tile. *)
Theorem ucs_search_agrees :
  no_x3_x4 →
  (∀ start goal, ucs_search start goal = ucs start goal) ∧
  (∀ tile, step_cost_search tile = 4 ↔ tile = "X1"%string ∨ tile = "X2"%string) ∧
  (∀ tile, step_cost tile = 4 ↔ tile ∈ TRAPS) ∧
  (∀ tile, tile ≠ "X3"%string → tile ≠ "X4"%string →
           step_cost_search tile = step_cost tile).
Proof.
  intros Hno. split; [|by auto using step_cost_search_doubled, step_cost_doubled,
                           step_cost_search_agree].
  intros start goal. unfold ucs_search, ucs, ucs_with.
  apply ucs_loop_agree. intros row tile Hrow Htile.
  unfold no_x3_x4 in Hno. rewrite Forall_forall in Hno.
  specialize (Hno row Hrow). rewrite Forall_forall in Hno.
  destruct (Hno tile Htile). by apply step_cost_search_agree.
Qed.

(** *** The heap *)

Lemma entry_leb_true a b : heapq.entry_leb a b = true → a.1 <= b.1.
Proof. unfold heapq.entry_leb. lia. Qed.

Lemma entry_leb_false a b : heapq.entry_leb a b = false → b.1 <= a.1.
Proof. unfold heapq.entry_leb. lia. Qed.

Lemma elem_of_heappush h e x : x ∈ heapq.heappush h e ↔ x = e ∨ x ∈ h.
Proof.
  induction h as [|y h IH]; simpl.
  - rewrite list_elem_of_singleton, elem_of_nil. tauto.
  - destruct (heapq.entry_leb e y); rewrite !elem_of_cons, ?IH; tauto.
Qed.

Lemma length_heappush h e : length (heapq.heappush h e) = S (length h).
Proof.
  induction h as [|y h IH]; simpl; [done|].
  destruct (heapq.entry_leb e y); simpl; by rewrite ?IH.
Qed.

Lemma cost_sorted_heappush h e : cost_sorted h → cost_sorted (heapq.heappush h e).
Proof.
  unfold cost_sorted. induction 1 as [|y h Hs IH Hy]; simpl.
  - repeat constructor.
  - destruct (heapq.entry_leb e y) eqn:He.
    + apply entry_leb_true in He. constructor; [by constructor|].
      constructor; [done|]. eapply Forall_impl; [exact Hy|]. simpl. intros; lia.
    + apply entry_leb_false in He. constructor; [done|].
      apply Forall_forall. intros x Hx. apply elem_of_heappush in Hx as [->|Hx]; [done|].
      by eapply (proj1 (Forall_forall _ _) Hy).
Qed.

Lemma cost_sorted_head c u rest c' v :
  cost_sorted ((c, u) :: rest) → (c', v) ∈ (c, u) :: rest → c <= c'.
Proof.
  intros Hs Hin. apply StronglySorted_inv in Hs as [_ Hall].
  apply elem_of_cons in Hin as [[= -> ->]|Hin]; [done|].
  by apply (proj1 (Forall_forall _ _) Hall _ Hin).
Qed.

Lemma cost_sorted_tail e rest : cost_sorted (e :: rest) → cost_sorted rest.
Proof. intros Hs. by apply StronglySorted_inv in Hs as [? _]. Qed.

(** *** Neighbours *)

Lemma adjacent_nbrs p q : adjacent p q = true ↔ q ∈ nbrs p.
Proof. unfold adjacent. rewrite get_neighbors_nbrs. apply bool_decide_eq_true. Qed.

Lemma nbrs_in_bounds p q : q ∈ nbrs p → in_bounds q = true.
Proof. rewrite elem_of_nbrs, passable_spec. tauto. Qed.

Lemma nbrs_length p : (length (nbrs p) ≤ 6)%nat.
Proof.
  rewrite nbrs_hex_candidates. etrans; [apply length_filter|].
  by rewrite hex_candidates_length.
Qed.

Lemma relax_in_bounds sc cc cur st n :
  in_bounds n = true →
  relax sc cc cur st n =
  Ret (if improves (cc + enter_cost sc n) (cost_so_far st !! n)
       then {| open_set := heapq.heappush (open_set st) (cc + enter_cost sc n, n);
               came_from := <[n := cur]> (came_from st);
               cost_so_far := <[n := cc + enter_cost sc n]> (cost_so_far st) |}
       else st).
Proof.
  intros Hb. unfold relax. destruct n as [r c]. cbn [fst snd].
  rewrite (grid_at_tile_of _ _ Hb). simpl. unfold enter_cost.
  by destruct (improves _ _).
Qed.

(** *** The invariant holds initially and is preserved *)

Section Correct.

Variable sc : string → Z.
Hypothesis sc_pos : ∀ tile, 0 < sc tile.
Variables start goal : cell.

Notation core := (core sc start goal).
Notation inv := (inv sc start goal).
Notation inv_relaxing := (inv_relaxing sc start goal).
Notation enter_cost := (enter_cost sc).

Lemma enter_cost_pos q : 0 < enter_cost q.
Proof. apply sc_pos. Qed.

Lemma inv_init : inv [] (ucs_init start).
Proof.
  split; [|intros u n Hu; apply elem_of_nil in Hu; destruct Hu].
  split; simpl.
  - apply lookup_singleton_eq.
  - apply lookup_empty.
  - intros v dv Hv. apply lookup_singleton_Some in Hv. lia.
  - intros v u Hv. by rewrite lookup_empty in Hv.
  - intros v [dv Hv]. apply lookup_singleton_Some in Hv as [<- _]. by left.
  - intros c v Hin. apply list_elem_of_singleton in Hin as [= -> ->].
    exists 0. by rewrite lookup_singleton_eq.
  - intros v dv Hv _. apply lookup_singleton_Some in Hv as [-> <-].
    by apply list_elem_of_singleton.
  - intros u Hu. by apply elem_of_nil in Hu.
  - repeat constructor.
  - constructor.
  - intros u Hu. by apply elem_of_nil in Hu.
  - apply not_elem_of_nil.
Qed.

(** The state after line 181-183 recorded [n] at cost [c + enter_cost n]. *)
Definition recorded (c : Z) (u : cell) (st : ucs_state) (n : cell) : ucs_state :=
  {| open_set := heapq.heappush (open_set st) (c + enter_cost n, n);
     came_from := <[n := u]> (came_from st);
     cost_so_far := <[n := c + enter_cost n]> (cost_so_far st) |}.

Lemma relax_keeps K c u n todo st :
  inv_relaxing K c u (n :: todo) st →
  improves (c + enter_cost n) (cost_so_far st !! n) = false →
  inv_relaxing K c u todo st.
Proof.
  intros (Hcore & HuK & Hdu & Hle & Hrel) Himp.
  split; [done|]. split; [done|]. split; [done|]. split; [done|].
  intros x m Hx Hm. destruct (Hrel x m Hx Hm) as [[-> Hin]|Hr]; [|by right].
  apply elem_of_cons in Hin as [->|Hin]; [|by left].
  right. unfold improves in Himp.
  destruct (cost_so_far st !! n) as [dn|] eqn:Hdn; [|done].
  exists c, dn. repeat split; [done..|lia].
Qed.

Lemma relax_records K c u n todo st :
  inv_relaxing K c u (n :: todo) st → n ∈ nbrs u →
  improves (c + enter_cost n) (cost_so_far st !! n) = true →
  inv_relaxing K c u todo (recorded c u st n).
Proof.
  intros (Hcore & HuK & Hdu & Hle & Hrel) Hn Himp.
  pose proof (enter_cost_pos n) as Hpos.
  assert (Hc : 0 <= c) by by eapply core_nonneg.
  assert (HnK : n ∉ K).
  { intros HnK. destruct (Hle n HnK) as (dn & Hdn & Hdnc).
    rewrite Hdn in Himp. simpl in Himp. lia. }
  assert (Hns : n ≠ start).
  { intros ->. rewrite (core_start Hcore) in Himp. simpl in Himp. lia. }
  assert (Hnu : n ≠ u) by (intros ->; done).
  assert (HK : ∀ x, x ∈ K → n ≠ x) by (intros x Hx ->; done).
  assert (Hold : ∀ dn, cost_so_far st !! n = Some dn → c + enter_cost n < dn).
  { intros dn Hdn. rewrite Hdn in Himp. simpl in Himp. lia. }
  split; [|split; [done|]; split; [|split]].
  - split; simpl.
    + rewrite lookup_insert_ne by done. apply Hcore.
    + rewrite lookup_insert_ne by done. apply Hcore.
    + intros v dv. destruct (decide (n = v)) as [<-|Hne].
      * rewrite lookup_insert_eq. intros [= <-]. lia.
      * rewrite lookup_insert_ne by done. apply Hcore.
    + intros v x. destruct (decide (n = v)) as [<-|Hne].
      * rewrite lookup_insert_eq. intros [= <-]. split; [done|]. split; [done|].
        exists c. rewrite lookup_insert_ne by done. by rewrite lookup_insert_eq.
      * rewrite lookup_insert_ne by done. intros Hv.
        destruct (core_cf Hcore v x Hv) as (HxK & Hvx & dx & Hdx & Hdv).
        split; [done|]. split; [done|]. exists dx.
        rewrite !lookup_insert_ne by auto. done.
    + intros v. destruct (decide (n = v)) as [<-|Hne].
      * intros _. right. rewrite lookup_insert_eq. eauto.
      * rewrite !lookup_insert_ne by done. apply Hcore.
    + intros c' v Hin. apply elem_of_heappush in Hin as [[= -> ->]|Hin].
      * exists (c + enter_cost n). by rewrite lookup_insert_eq.
      * destruct (core_heap Hcore c' v Hin) as (dv & Hdv & Hle').
        destruct (decide (n = v)) as [<-|Hne].
        -- exists (c + enter_cost n). rewrite lookup_insert_eq. split; [done|].
           specialize (Hold dv Hdv). lia.
        -- exists dv. by rewrite lookup_insert_ne.
    + intros v dv. destruct (decide (n = v)) as [<-|Hne].
      * rewrite lookup_insert_eq. intros [= <-] _. apply elem_of_heappush. by left.
      * rewrite lookup_insert_ne by done. intros Hdv HvK.
        apply elem_of_heappush. right. by eapply core_open.
    + intros x Hx. destruct (core_closed Hcore x Hx) as (dx & Hdx & Hmin).
      exists dx. rewrite lookup_insert_ne by auto. split; [done|].
      intros c' v Hin. apply elem_of_heappush in Hin as [[= -> ->]|Hin]; [|eauto].
      destruct (Hle x Hx) as (dx' & Hdx' & ?). simplify_eq. lia.
    + apply cost_sorted_heappush, Hcore.
    + apply Hcore.
    + apply Hcore.
    + apply Hcore.
  - simpl. by rewrite lookup_insert_ne.
  - intros x Hx. simpl. rewrite lookup_insert_ne by auto. auto.
  - intros x m Hx Hm. pose proof (HK x Hx) as Hnx.
    destruct (Hle x Hx) as (dx & Hdx & Hdxc).
    destruct (decide (m = n)) as [->|Hmn].
    + right. exists dx, (c + enter_cost n). simpl.
      rewrite lookup_insert_ne by done. rewrite lookup_insert_eq.
      split; [done|]. split; [done|].
      destruct (Hrel x n Hx Hm) as [[-> _]|(dx' & dn & Hdx' & Hdn & Hr)].
      * simplify_eq. lia.
      * simplify_eq. specialize (Hold dn Hdn). lia.
    + destruct (Hrel x m Hx Hm) as [[-> Hin]|(dx' & dm & Hdx' & Hdm & Hr)].
      * left. split; [done|]. apply elem_of_cons in Hin as [?|?]; done.
      * right. exists dx', dm. simpl. rewrite !lookup_insert_ne by auto. done.
Qed.

Lemma relax_all_relaxing K c u ns st :
  inv_relaxing K c u ns st → (∀ n, n ∈ ns → n ∈ nbrs u) →
  ∃ st', relax_all sc c u ns st = Ret st' ∧ inv_relaxing K c u [] st' ∧
         (length (open_set st') ≤ length ns + length (open_set st))%nat.
Proof.
  revert st. induction ns as [|n ns IH]; intros st Hinv Hns.
  - exists st. simpl. split; [done|]. split; [done|]. lia.
  - assert (Hn : n ∈ nbrs u) by (apply Hns; by left).
    simpl. rewrite (relax_in_bounds _ _ _ _ _ (nbrs_in_bounds _ _ Hn)). simpl.
    destruct (improves _ _) eqn:Himp.
    + destruct (IH (recorded c u st n)) as (st' & Hrun & Hinv' & Hlen).
      { by apply relax_records. }
      { intros m Hm. apply Hns. by right. }
      exists st'. split; [done|]. split; [done|].
      simpl in Hlen. rewrite length_heappush in Hlen. lia.
    + destruct (IH st) as (st' & Hrun & Hinv' & Hlen).
      { by eapply relax_keeps. }
      { intros m Hm. apply Hns. by right. }
      exists st'. split; [done|]. split; [done|]. lia.
Qed.

Lemma inv_relaxing_done K c u st : inv_relaxing K c u [] st → inv K st.
Proof.
  intros (Hcore & _ & _ & _ & Hrel). split; [done|].
  intros x n Hx Hn. destruct (Hrel x n Hx Hn) as [[_ Hin]|Hr]; [|done].
  by apply elem_of_nil in Hin.
Qed.

(** The state once the head of the heap is popped. *)
Definition popped (rest : list (Z * cell)) (st : ucs_state) : ucs_state :=
  {| open_set := rest; came_from := came_from st; cost_so_far := cost_so_far st |}.

Lemma pop_cost K st c u rest :
  inv K st → open_set st = (c, u) :: rest → u ∉ K → cost_so_far st !! u = Some c.
Proof.
  intros [Hcore _] Hopen HuK.
  destruct (core_heap Hcore c u) as (du & Hdu & Hle); [rewrite Hopen; by left|].
  pose proof (core_open Hcore u du Hdu HuK) as Hin.
  pose proof (core_sorted Hcore) as Hs. rewrite Hopen in Hin, Hs.
  pose proof (cost_sorted_head _ _ _ _ _ Hs Hin). by replace c with du by lia.
Qed.

Lemma pop_fresh K st c u rest :
  inv K st → open_set st = (c, u) :: rest → u ∉ K → u ≠ goal →
  inv_relaxing (u :: K) c u (nbrs u) (popped rest st).
Proof.
  intros Hinv Hopen HuK Hug. pose proof (pop_cost _ _ _ _ _ Hinv Hopen HuK) as Hdu.
  destruct Hinv as [Hcore Hrel].
  pose proof (core_sorted Hcore) as Hs. rewrite Hopen in Hs.
  assert (Hsub : ∀ e, e ∈ rest → e ∈ open_set st).
  { intros e He. rewrite Hopen. by right. }
  split; [|split; [by left|]; split; [done|]; split].
  - split; simpl; try apply Hcore.
    + intros v x Hv. destruct (core_cf Hcore v x Hv) as (? & ? & ?).
      split; [by right|done].
    + intros c' v Hin. apply (core_heap Hcore). auto.
    + intros v dv Hdv HvK. apply not_elem_of_cons in HvK as [Hvu HvK].
      pose proof (core_open Hcore v dv Hdv HvK) as Hin. rewrite Hopen in Hin.
      apply elem_of_cons in Hin as [[= -> ->]|Hin]; done.
    + intros x Hx. apply elem_of_cons in Hx as [->|Hx].
      * exists c. split; [done|]. intros c' v Hin.
        eapply cost_sorted_head; [exact Hs|]. by right.
      * destruct (core_closed Hcore x Hx) as (dx & Hdx & Hmin).
        exists dx. split; [done|]. intros c' v Hin. eapply Hmin. eauto.
    + by eapply cost_sorted_tail.
    + constructor; [done|apply Hcore].
    + intros x Hx. apply elem_of_cons in Hx as [->|Hx]; [|by apply (core_region Hcore)].
      destruct (core_dom Hcore u) as [->|[x Hx]]; [eauto|by left|].
      destruct (core_cf Hcore u x Hx) as (_ & Hux & _).
      right. by eapply nbrs_in_bounds.
    + apply not_elem_of_cons. split; [done|apply Hcore].
  - intros x Hx. simpl. apply elem_of_cons in Hx as [->|Hx].
    + exists c. split; [done|lia].
    + destruct (core_closed Hcore x Hx) as (dx & Hdx & Hmin).
      exists dx. split; [done|]. apply (Hmin c u). rewrite Hopen. by left.
  - intros x n Hx Hn. apply elem_of_cons in Hx as [->|Hx]; [by left|].
    right. by apply Hrel.
Qed.

Lemma relax_all_noop c u ns st :
  (∀ n, n ∈ ns → in_bounds n = true ∧
        ∃ dn, cost_so_far st !! n = Some dn ∧ dn <= c + enter_cost n) →
  relax_all sc c u ns st = Ret st.
Proof.
  induction ns as [|n ns IH]; intros Hns; simpl; [done|].
  destruct (Hns n) as (Hb & dn & Hdn & Hle); [by left|].
  rewrite (relax_in_bounds _ _ _ _ _ Hb). rewrite Hdn. simpl.
  replace (c + enter_cost n <? dn) with false by lia. simpl.
  apply IH. intros m Hm. apply Hns. by right.
Qed.

Lemma pop_stale K st c u rest :
  inv K st → open_set st = (c, u) :: rest → u ∈ K →
  inv K (popped rest st) ∧
  relax_all sc c u (nbrs u) (popped rest st) = Ret (popped rest st).
Proof.
  intros [Hcore Hrel] Hopen HuK.
  pose proof (core_sorted Hcore) as Hs. rewrite Hopen in Hs.
  assert (Hsub : ∀ e, e ∈ rest → e ∈ open_set st).
  { intros e He. rewrite Hopen. by right. }
  split; [split|].
  - split; simpl; try apply Hcore.
    + intros c' v Hin. apply (core_heap Hcore). auto.
    + intros v dv Hdv HvK.
      pose proof (core_open Hcore v dv Hdv HvK) as Hin. rewrite Hopen in Hin.
      apply elem_of_cons in Hin as [[= -> ->]|Hin]; done.
    + intros x Hx. destruct (core_closed Hcore x Hx) as (dx & Hdx & Hmin).
      exists dx. split; [done|]. intros c' v Hin. eapply Hmin. eauto.
    + by eapply cost_sorted_tail.
  - intros x n Hx Hn. by apply Hrel.
  - apply relax_all_noop. intros n Hn. split; [by eapply nbrs_in_bounds|].
    destruct (Hrel u n HuK Hn) as (du & dn & Hdu & Hdn & Hle).
    destruct (core_closed Hcore u HuK) as (du' & Hdu' & Hmin).
    exists dn. simpl. split; [done|].
    assert (du' <= c) by (apply (Hmin c u); rewrite Hopen; by left).
    simplify_eq. lia.
Qed.

(** *** Every iteration makes progress *)

Lemma region_length : length (region start) = S (Z.to_nat ROWS * Z.to_nat COLS).
Proof. unfold region. simpl. by rewrite length_prod, !length_seqZ. Qed.

Lemma elem_of_region u : u = start ∨ in_bounds u = true → u ∈ region start.
Proof.
  unfold region. intros [->|Hb]; [by left|]. right.
  apply list_elem_of_In. destruct u as [r c]. apply in_prod_iff.
  unfold in_bounds in Hb. simpl in Hb.
  rewrite <- !list_elem_of_In, !elem_of_seqZ. lia.
Qed.

Lemma settled_le_region K st : core K st → (length K ≤ length (region start))%nat.
Proof.
  intros Hcore. apply submseteq_length, NoDup_submseteq; [apply Hcore|].
  intros u Hu. by apply elem_of_region, (core_region Hcore).
Qed.

Lemma potential_nonneg K st : core K st → 0 <= potential start K st.
Proof. intros Hcore. pose proof (settled_le_region _ _ Hcore). unfold potential. lia. Qed.

Lemma ucs_step K st c u rest :
  inv K st → open_set st = (c, u) :: rest → u ≠ goal →
  ∃ K' st', relax_all sc c u (nbrs u) (popped rest st) = Ret st' ∧ inv K' st' ∧
            potential start K' st' < potential start K st.
Proof.
  intros Hinv Hopen Hug. destruct (decide (u ∈ K)) as [HuK|HuK].
  - destruct (pop_stale _ _ _ _ _ Hinv Hopen HuK) as [Hinv' Hrun].
    exists K, (popped rest st). split; [done|]. split; [done|].
    unfold potential. rewrite Hopen. simpl. lia.
  - pose proof (pop_fresh _ _ _ _ _ Hinv Hopen HuK Hug) as Hrel.
    destruct (relax_all_relaxing _ _ _ _ _ Hrel) as (st' & Hrun & Hrel' & Hlen); [done|].
    exists (u :: K), st'. split; [done|]. split; [by eapply inv_relaxing_done|].
    pose proof (nbrs_length u). unfold potential. rewrite Hopen.
    simpl in *. lia.
Qed.

(** *** Walks and the recorded costs *)

Lemma last_cons_default {A : Type} (x : A) l s : List.last (x :: l) s = List.last l x.
Proof.
  revert x s. induction l as [|y l IH]; intros x s; [done|].
  change (List.last (x :: y :: l) s) with (List.last (y :: l) s).
  by rewrite !IH.
Qed.

Lemma is_walk_snoc s l q :
  is_walk s (l ++ [q]) = is_walk s l && adjacent (List.last l s) q.
Proof.
  revert s. induction l as [|x l IH]; intros s.
  - simpl. by rewrite andb_true_r.
  - rewrite last_cons_default. simpl. by rewrite IH, andb_assoc.
Qed.

Lemma path_cost_snoc l q : path_cost sc (l ++ [q]) = path_cost sc l + enter_cost q.
Proof.
  unfold path_cost. induction l as [|x l IH]; simpl; [unfold enter_cost; lia|].
  rewrite IH. lia.
Qed.

Lemma path_cost_nonneg l : 0 <= path_cost sc l.
Proof.
  unfold path_cost. induction l as [|x l IH]; simpl; [done|].
  pose proof (sc_pos (tile_of x)). lia.
Qed.

Lemma leads_nil v : leads start v [] ↔ v = start.
Proof. unfold leads. simpl. naive_solver. Qed.

Lemma leads_snoc v l q :
  leads start v (l ++ [q]) ↔ v = q ∧ ∃ u, leads start u l ∧ q ∈ nbrs u.
Proof.
  unfold leads. rewrite is_walk_snoc, last_last, andb_true_iff, adjacent_nbrs.
  naive_solver.
Qed.

(** A walk from the start costs at least the recorded cost of its end, if
    that cell is settled, and at least some pending cost otherwise. *)
Lemma walk_bound K st path v :
  inv K st → leads start v path →
  (v ∈ K ∧ ∃ dv, cost_so_far st !! v = Some dv ∧ dv <= path_cost sc path) ∨
  (∃ c x, (c, x) ∈ open_set st ∧ c <= path_cost sc path).
Proof.
  intros [Hcore Hrel]. revert v. induction path as [|q l IH] using rev_ind; intros v Hv.
  - apply leads_nil in Hv as ->. destruct (decide (start ∈ K)) as [HK|HK].
    + left. split; [done|]. exists 0. split; [apply Hcore|done].
    + right. exists 0, start. split; [|done].
      apply (core_open Hcore); [apply Hcore|done].
  - apply leads_snoc in Hv as (-> & u & Hu & Hq).
    rewrite path_cost_snoc. pose proof (enter_cost_pos q).
    destruct (IH u Hu) as [(HuK & du & Hdu & Hle)|(c & x & Hin & Hle)].
    + destruct (Hrel u q HuK Hq) as (du' & dq & Hdu' & Hdq & Hr). simplify_eq.
      destruct (decide (q ∈ K)) as [HqK|HqK].
      * left. split; [done|]. exists dq. split; [done|lia].
      * right. exists dq, q. split; [by apply (core_open Hcore)|lia].
    + right. exists c, x. split; [done|lia].
Qed.

(** The [came_from] links of a recorded cell lead back to the start along
    a walk of the recorded cost. *)
Lemma chain K st v dv :
  core K st → cost_so_far st !! v = Some dv →
  ∃ l, (∀ fuel acc, (length l < fuel)%nat →
          walk_back fuel (came_from st) v acc = Ret (acc ++ l)) ∧
       leads start v (rev l) ∧ path_cost sc (rev l) = dv ∧ NoDup l ∧
       (∀ x, x ∈ l → is_Some (came_from st !! x)) ∧
       (∀ x, x ∈ l → ∃ dx, cost_so_far st !! x = Some dx ∧ dx <= dv).
Proof.
  intros Hcore. remember (Z.to_nat dv) as k eqn:Hk. revert v dv Hk.
  induction k as [k IH] using lt_wf_ind. intros v dv -> Hdv.
  destruct (came_from st !! v) as [u|] eqn:Hcf.
  - destruct (core_cf Hcore v u Hcf) as (HuK & Hvu & du & Hdu & Hdv').
    pose proof (enter_cost_pos v) as Hpos.
    pose proof (core_nonneg Hcore u du Hdu) as Hdu0.
    assert (dv = du + enter_cost v) as -> by congruence.
    destruct (IH (Z.to_nat du) ltac:(lia) u du eq_refl Hdu)
      as (l & Hrun & Hleads & Hcost & Hnd & Hdom & Hbound).
    exists (v :: l). split_and!.
    + intros [|fuel] acc Hlen; simpl in *; [lia|].
      rewrite Hcf, Hrun by lia. by rewrite <- app_assoc.
    + simpl. apply leads_snoc. eauto.
    + simpl. rewrite path_cost_snoc. lia.
    + constructor; [|done]. intros Hin.
      destruct (Hbound v Hin) as (dx & Hdx & Hle). simplify_eq. lia.
    + intros x Hx. apply elem_of_cons in Hx as [->|Hx]; eauto.
    + intros x Hx. apply elem_of_cons in Hx as [->|Hx].
      * exists (du + enter_cost v). split; [done|lia].
      * destruct (Hbound x Hx) as (dx & Hdx & Hle). exists dx. split; [done|lia].
  - destruct (core_dom Hcore v) as [->|[u Hu]]; [eauto| |congruence].
    assert (dv = 0) as -> by (pose proof (core_start Hcore); congruence).
    exists []. split_and!.
    + intros [|fuel] acc Hlen; simpl in *; [lia|].
      by rewrite Hcf, app_nil_r.
    + by apply leads_nil.
    + done.
    + constructor.
    + intros x Hx. by apply elem_of_nil in Hx.
    + intros x Hx. by apply elem_of_nil in Hx.
Qed.

Lemma chain_length (cf : gmap cell cell) (l : list cell) :
  NoDup l → (∀ x, x ∈ l → is_Some (cf !! x)) → (length l ≤ size cf)%nat.
Proof.
  intros Hnd Hdom. rewrite <- (size_dom (D:=gset cell)).
  rewrite <- (size_list_to_set (C:=gset cell) l Hnd).
  apply subseteq_size. intros x Hx. apply elem_of_list_to_set in Hx.
  by apply elem_of_dom, Hdom.
Qed.

(** *** The loop *)

Lemma ucs_loop_spec fuel K st :
  inv K st → potential start K st < Z.of_nat fuel →
  (∃ path z, ucs_loop sc fuel goal st = Ret (path, Finite z) ∧
             leads start goal path ∧ z = path_cost sc path ∧
             ∀ path', leads start goal path' → z <= path_cost sc path') ∨
  (ucs_loop sc fuel goal st = Ret ([], Infinity) ∧ ¬ reachable start goal).
Proof.
  revert K st. induction fuel as [|fuel IH]; intros K st Hinv Hpot.
  { pose proof (potential_nonneg K st (proj1 Hinv)). lia. }
  rewrite ucs_loop_S. unfold heapq.heappop.
  destruct (open_set st) as [|[c u] rest] eqn:Hopen.
  - right. split; [done|]. intros [path Hpath].
    destruct (walk_bound _ _ _ _ Hinv Hpath) as [[HK _]|(c & x & Hin & _)].
    + by apply (core_goal (proj1 Hinv)).
    + rewrite Hopen in Hin. by apply elem_of_nil in Hin.
  - destruct (decide (u = goal)) as [->|Hug].
    + left. destruct Hinv as [Hcore Hrel].
      destruct (core_heap Hcore c goal) as (dg & Hdg & Hle); [rewrite Hopen; by left|].
      destruct (chain _ _ _ _ Hcore Hdg) as (l & Hrun & Hleads & Hcost & Hnd & Hdom & _).
      pose proof (chain_length _ _ Hnd Hdom) as Hlen.
      rewrite (Hrun (S (size (came_from st))) []) by lia. simpl. rewrite Hdg.
      exists (rev l), dg. split; [done|]. split; [done|]. split; [done|].
      intros path' Hpath'.
      destruct (walk_bound _ _ _ _ (conj Hcore Hrel) Hpath') as [[HK _]|(c' & x & Hin & Hle')].
      * by destruct (core_goal Hcore).
      * pose proof (core_sorted Hcore) as Hs. rewrite Hopen in Hs, Hin.
        pose proof (cost_sorted_head _ _ _ _ _ Hs Hin). lia.
    + rewrite get_neighbors_nbrs. simpl.
      destruct (ucs_step _ _ _ _ _ Hinv Hopen Hug) as (K' & st' & Hrun & Hinv' & Hlt).
      unfold popped in Hrun. rewrite Hrun. simpl. apply (IH K' st' Hinv'). lia.
Qed.

Lemma ucs_with_spec :
  (∃ path z, ucs_with sc start goal = Ret (path, Finite z) ∧
             leads start goal path ∧ z = path_cost sc path ∧
             ∀ path', leads start goal path' → z <= path_cost sc path') ∨
  (ucs_with sc start goal = Ret ([], Infinity) ∧ ¬ reachable start goal).
Proof.
  unfold ucs_with. apply (ucs_loop_spec ucs_fuel []); [apply inv_init|].
  unfold potential, ucs_fuel. rewrite region_length. simpl length.
  unfold ROWS, COLS. destruct grid as [|row rows]; simpl length; nia.
Qed.

End Correct.

Lemma step_cost_pos tile : 0 < step_cost tile.
Proof. unfold step_cost. by destruct (py_in tile TRAPS), (py_in tile REWARDS). Qed.

Lemma step_cost_search_pos tile : 0 < step_cost_search tile.
Proof.
  unfold step_cost_search.
  by destruct (String.eqb tile "X1" || String.eqb tile "X2"),
    (String.eqb tile "R1" || String.eqb tile "R2").
Qed.

Lemma py_in_spec tile l : py_in tile l = bool_decide (tile ∈ l).
Proof.
  unfold py_in. induction l as [|x l IH]; simpl; [done|].
  rewrite IH. destruct (String.eqb_spec tile x) as [->|Hne]; simpl.
  - symmetry. apply bool_decide_eq_true. by left.
  - apply bool_decide_ext. rewrite elem_of_cons. naive_solver.
Qed.

(** The step cost in halves: 1.0, 2.0 on a trap, 0.5 on a reward. *)
Lemma step_cost_values tile :
  step_cost tile =
  if bool_decide (tile ∈ TRAPS) then 4
  else if bool_decide (tile ∈ REWARDS) then 1 else 2.
Proof. unfold step_cost. rewrite !py_in_spec. by repeat case_bool_decide. Qed.

(** The search always returns a pair. *)
Lemma ucs_total s t : ∃ path c, ucs s t = Ret (path, c).
Proof.
  destruct (ucs_with_spec step_cost step_cost_pos s t) as [(p & z & H & _)|[H _]]; eauto.
Qed.

Lemma leads_passable start goal path :
  leads start goal path → goal = start ∨ passable goal = true.
Proof.
  destruct path as [|q l _] using rev_ind.
  - intros ->%leads_nil. by left.
  - intros (-> & u & _ & Hq)%leads_snoc. right. by apply elem_of_nbrs in Hq as [? _].
Qed.

(** C1: for a goal reachable from the start, [ucs] returns a walk from the
    start to the goal together with its cost, the sum of the step costs of
    its cells (the start is not one of them, the goal is the last), where
    the step cost of a cell is 1.0, doubled on a trap tile and halved on a
    reward tile (2, 4 and 1 in halves); and no walk from the start to the
    goal costs strictly less. *)
Theorem ucs_optimal (start goal : cell) :
  reachable start goal →
  ∃ path c,
    ucs start goal = Ret (path, Finite c) ∧
    leads start goal path ∧
    c = path_cost step_cost path ∧
    (∀ tile, step_cost tile =
             if bool_decide (tile ∈ TRAPS) then 4
             else if bool_decide (tile ∈ REWARDS) then 1 else 2) ∧
    (∀ path', leads start goal path' → ¬ path_cost step_cost path' < c).
Proof.
  intros Hreach.
  destruct (ucs_with_spec step_cost step_cost_pos start goal)
    as [(path & z & Hrun & Hleads & Hcost & Hopt)|[_ Hno]]; [|done].
  exists path, z. split_and!; [done..|apply step_cost_values|].
  intros path' Hpath'. specialize (Hopt path' Hpath'). lia.
Qed.

(** C5, amended: for a goal other than the start that is blocked or not
    reachable from the start, [ucs] returns the pair of the empty path and
    the infinite cost, as a value: it raises nothing. *)
Theorem ucs_unreachable (start goal : cell) :
  goal ≠ start →
  blocked goal = true ∨ ¬ reachable start goal →
  ucs start goal = Ret ([], Infinity).
Proof.
  intros Hne Hgoal.
  assert (Hno : ¬ reachable start goal).
  { destruct Hgoal as [Hb|Hno]; [|done]. intros [path Hpath].
    destruct (leads_passable _ _ _ Hpath) as [?|Hp]; [done|].
    unfold passable in Hp. rewrite Hb in Hp. by rewrite andb_false_r in Hp. }
  destruct (ucs_with_spec step_cost step_cost_pos start goal)
    as [(path & z & _ & Hleads & _)|[Hrun _]]; [|done].
  destruct Hno. by exists path.
Qed.

(** *** Orderings *)

Lemma picks_perm {A : Type} (l : list A) x rest :
  (x, rest) ∈ itertools.picks l → l ≡ₚ x :: rest.
Proof.
  revert x rest. induction l as [|y l IH]; intros x rest; simpl.
  - by intros ?%elem_of_nil.
  - intros [[= -> ->]|Hin]%elem_of_cons; [done|].
    apply list_elem_of_In, in_map_iff in Hin as ([x' rest'] & [= -> <-] & Hin).
    apply list_elem_of_In, IH in Hin. rewrite Hin. apply Permutation_swap.
Qed.

Lemma picks_elem {A : Type} (l : list A) x :
  x ∈ l → ∃ rest, (x, rest) ∈ itertools.picks l.
Proof.
  induction l as [|y l IH]; simpl.
  - by intros ?%elem_of_nil.
  - intros [->|Hin]%elem_of_cons.
    + exists l. by left.
    + destruct (IH Hin) as [rest Hrest]. exists (y :: rest). right.
      apply list_elem_of_In, in_map_iff. exists (x, rest).
      split; [done|]. by apply list_elem_of_In.
Qed.

Lemma picks_length {A : Type} (l : list A) : length (itertools.picks l) = length l.
Proof. induction l as [|y l IH]; simpl; [done|]. by rewrite length_map, IH. Qed.

Lemma perms_of_len_perm {A : Type} n (l p : list A) :
  length l = n → p ∈ itertools.perms_of_len n l ↔ p ≡ₚ l.
Proof.
  revert l p. induction n as [|n IH]; intros l p Hlen; simpl.
  - apply length_zero_iff_nil in Hlen as ->. rewrite list_elem_of_singleton.
    split; [by intros ->|]. intros Hp. by apply Permutation_nil_r.
  - rewrite list_elem_of_In, in_flat_map. split.
    + intros ([x rest] & Hin & Hp). simpl in Hp.
      apply in_map_iff in Hp as (p' & <- & Hp').
      apply list_elem_of_In, picks_perm in Hin.
      apply list_elem_of_In, IH in Hp'.
      * by rewrite Hin, Hp'.
      * apply Permutation_length in Hin. simpl in Hin. lia.
    + intros Hp. destruct p as [|x p'].
      { apply Permutation_length in Hp. simpl in Hp. lia. }
      assert (Hx : x ∈ l) by (rewrite <- Hp; by left).
      destruct (picks_elem l x Hx) as [rest Hrest].
      pose proof (picks_perm _ _ _ Hrest) as Hl.
      exists (x, rest). split; [by apply list_elem_of_In|]. simpl.
      apply in_map, list_elem_of_In, IH.
      * apply Permutation_length in Hl. simpl in Hl. lia.
      * apply (Permutation_cons_inv (a:=x)). by rewrite <- Hl.
Qed.

Lemma permutations_perm {A : Type} (l p : list A) :
  p ∈ itertools.permutations l ↔ p ≡ₚ l.
Proof. by apply perms_of_len_perm. Qed.

Lemma flat_map_const_length {A B : Type} (f : A → list B) l k :
  (∀ x, x ∈ l → length (f x) = k) → length (flat_map f l) = (length l * k)%nat.
Proof.
  induction l as [|x l IH]; intros Hf; simpl; [done|].
  rewrite length_app, IH, Hf; [done|by left|]. intros y Hy. apply Hf. by right.
Qed.

Lemma perms_of_len_length {A : Type} n (l : list A) :
  length l = n → length (itertools.perms_of_len n l) = fact n.
Proof.
  revert l. induction n as [|n IH]; intros l Hlen; simpl; [done|].
  rewrite (flat_map_const_length _ _ (fact n)).
  - rewrite picks_length, Hlen. simpl. lia.
  - intros [x rest] Hin. simpl. rewrite length_map. apply IH.
    apply picks_perm, Permutation_length in Hin. simpl in Hin. lia.
Qed.

(** *** The planner on one ordering *)

Lemma ucs_shortest_path a b : ucs a b = Ret (shortest_path a b).
Proof. unfold shortest_path. destruct (ucs_total a b) as (p & c & ->). done. Qed.

Lemma cost_add_assoc a b c : cost_add (cost_add a b) c = cost_add a (cost_add b c).
Proof. destruct a, b, c; simpl; f_equal; lia. Qed.

Lemma cost_add_0_l c : cost_add (Finite 0) c = c.
Proof. destruct c; simpl; [f_equal; lia|done]. Qed.

Lemma cost_add_0_r c : cost_add c (Finite 0) = c.
Proof. destruct c; simpl; [f_equal; lia|done]. Qed.

Lemma visit_spec stops pos tp tc :
  visit ucs stops pos tp tc =
  Ret (match spec_route_from pos stops with
       | None => None
       | Some pc => Some (List.last stops pos, tp ++ pc.1, cost_add tc pc.2)
       end).
Proof.
  revert pos tp tc. induction stops as [|t rest IH]; intros pos tp tc.
  - simpl. by rewrite app_nil_r, cost_add_0_r.
  - rewrite last_cons_default. simpl. rewrite ucs_shortest_path. simpl.
    destruct (shortest_path pos t).1 as [|q seg] eqn:Hseg; [done|].
    rewrite IH. destruct (spec_route_from t rest) as [[p c]|]; [|done].
    simpl. by rewrite <- app_assoc, cost_add_assoc.
Qed.

Lemma spec_route_from_app pos l1 l2 :
  spec_route_from pos (l1 ++ l2) =
  match spec_route_from pos l1 with
  | None => None
  | Some pc1 =>
      match spec_route_from (List.last l1 pos) l2 with
      | None => None
      | Some pc2 => Some (pc1.1 ++ pc2.1, cost_add pc1.2 pc2.2)
      end
  end.
Proof.
  revert pos. induction l1 as [|t l1 IH]; intros pos.
  - simpl. destruct (spec_route_from pos l2) as [[p c]|]; [|done].
    simpl. by destruct c.
  - rewrite last_cons_default. simpl.
    destruct (shortest_path pos t).1 as [|q seg]; [done|].
    rewrite IH. destruct (spec_route_from t l1) as [[p1 c1]|]; [|done].
    destruct (spec_route_from (List.last l1 t) l2) as [[p2 c2]|]; [|done].
    simpl. by rewrite <- app_assoc, app_comm_cons, cost_add_assoc.
Qed.

Lemma try_order_spec start rts order :
  try_order ucs start rts order = Ret (spec_route start rts order).
Proof.
  unfold try_order, spec_route. rewrite visit_spec.
  destruct rts.
  - rewrite spec_route_from_app.
    destruct (spec_route_from start order) as [[p c]|]; [|done].
    cbn [mbind res_bind fst snd]. rewrite ucs_shortest_path.
    cbn [mbind res_bind fst snd spec_route_from]. rewrite cost_add_0_l.
    destruct (shortest_path (List.last order start) start) as [[|q seg] rc]; [done|].
    cbn [fst snd app]. by rewrite app_nil_r, cost_add_0_r.
  - rewrite app_nil_r. destruct (spec_route_from start order) as [[p c]|]; [|done].
    cbn [mbind res_bind fst snd app]. by rewrite cost_add_0_l.
Qed.

Lemma spec_route_from_stay pos pre t post :
  List.last pre pos = t → spec_route_from pos (pre ++ t :: post) = None.
Proof.
  intros Hlast. rewrite spec_route_from_app, Hlast. simpl.
  unfold shortest_path at 1. rewrite ucs_same. simpl.
  by destruct (spec_route_from pos pre).
Qed.

(** C9: an ordering in which a target equals the position its segment
    starts from (the start for the first target, the previous target
    otherwise) is discarded: the search of that segment returns the empty
    path with cost 0, which the planner reads as unreachable.  In
    particular the planner returns the empty path on the single target
    [start]. *)
Theorem find_best_treasure_path_stay
  (start t : cell) (pre post : list cell) (return_to_start : bool) :
  List.last pre start = t →
  ucs t t = Ret ([], Finite 0) ∧
  try_order ucs start return_to_start (pre ++ t :: post) = Ret None ∧
  find_best_treasure_path start [start] return_to_start = Ret [].
Proof.
  intros Hlast. split; [apply ucs_same|]. split.
  - rewrite try_order_spec. unfold spec_route. rewrite <- app_assoc.
    f_equal. change ((t :: post) ++ ?l) with (t :: post ++ l).
    by apply spec_route_from_stay.
  - unfold find_best_treasure_path, find_best_treasure_path_with.
    change (itertools.permutations [start]) with [[start]].
    unfold best_of. rewrite try_order_spec. unfold spec_route.
    change ([start] ++ ?l) with ([] ++ start :: l).
    by rewrite spec_route_from_stay.
Qed.

(** *** The best ordering *)

Lemma cost_ltb_trans a b c :
  cost_ltb a b = true → cost_ltb b c = true → cost_ltb a c = true.
Proof. destruct a, b, c; simpl; try done; lia. Qed.

Lemma cost_ltb_below a b m :
  cost_ltb a m = true → cost_ltb b m = false → cost_ltb a b = true.
Proof. destruct a, b, m; simpl; try done; lia. Qed.

Lemma shortest_path_finite a b q seg :
  (shortest_path a b).1 = q :: seg → ∃ z, (shortest_path a b).2 = Finite z.
Proof.
  intros Hseg. pose proof (ucs_shortest_path a b) as Hrun.
  destruct (shortest_path a b) as [p c]. simpl in *.
  destruct (ucs_shape _ _ _ _ Hrun) as [[-> _]|?]; done.
Qed.

Lemma spec_route_from_finite pos stops p c :
  spec_route_from pos stops = Some (p, c) → ∃ z, c = Finite z.
Proof.
  revert pos p c. induction stops as [|t rest IH]; intros pos p c; simpl.
  - intros [= <- <-]. eauto.
  - destruct (shortest_path pos t).1 as [|q seg] eqn:Hseg; [done|].
    destruct (shortest_path_finite _ _ _ _ Hseg) as [z ->].
    destruct (spec_route_from t rest) as [[p' c']|] eqn:Hrest; [|done].
    destruct (IH _ _ _ Hrest) as [z' ->]. simpl. intros [= <- <-]. eauto.
Qed.

Lemma best_of_spec start rts orders best_path min_total_cost :
  ∃ best,
    best_of ucs start rts orders best_path min_total_cost = Ret best ∧
    ((best = best_path ∧
      ∀ o p c, o ∈ orders → spec_route start rts o = Some (p, c) →
               cost_ltb c min_total_cost = false) ∨
     (∃ pre order post tc,
        orders = pre ++ order :: post ∧
        spec_route start rts order = Some (best, tc) ∧
        cost_ltb tc min_total_cost = true ∧
        (∀ o p c, o ∈ pre → spec_route start rts o = Some (p, c) →
                  cost_ltb tc c = true) ∧
        (∀ o p c, o ∈ post → spec_route start rts o = Some (p, c) →
                  cost_ltb c tc = false))).
Proof.
  revert best_path min_total_cost.
  induction orders as [|order rest IH]; intros bp m.
  - exists bp. split; [done|]. left. split; [done|].
    intros o p c Ho. by apply elem_of_nil in Ho.
  - cbn [best_of]. rewrite try_order_spec. cbn [mbind res_bind].
    destruct (spec_route start rts order) as [[tp tc]|] eqn:Horder.
    + destruct (cost_ltb tc m) eqn:Hlt.
      * destruct (IH tp tc) as (best & Hrun & [[-> Hall]|Hex]).
        -- exists tp. split; [done|]. right. exists [], order, rest, tc.
           split_and!; [done..| |done].
           intros o p c Ho. by apply elem_of_nil in Ho.
        -- destruct Hex as (pre & order' & post & tc' & -> & Hroute & Hlt' & Hpre & Hpost).
           exists best. split; [done|]. right.
           exists (order :: pre), order', post, tc'.
           split_and!; [done..| | |done].
           ++ by eapply cost_ltb_trans.
           ++ intros o p c [->|Ho]%elem_of_cons Hr; [|by eapply Hpre].
              rewrite Horder in Hr. by simplify_eq.
      * destruct (IH bp m) as (best & Hrun & [[-> Hall]|Hex]).
        -- exists bp. split; [done|]. left. split; [done|].
           intros o p c [->|Ho]%elem_of_cons Hr; [|by eapply Hall].
           rewrite Horder in Hr. by simplify_eq.
        -- destruct Hex as (pre & order' & post & tc' & -> & Hroute & Hlt' & Hpre & Hpost).
           exists best. split; [done|]. right.
           exists (order :: pre), order', post, tc'.
           split_and!; [done..| |done].
           intros o p c [->|Ho]%elem_of_cons Hr; [|by eapply Hpre].
           rewrite Horder in Hr. simplify_eq. by eapply cost_ltb_below.
    + destruct (IH bp m) as (best & Hrun & [[-> Hall]|Hex]).
      * exists bp. split; [done|]. left. split; [done|].
        intros o p c [->|Ho]%elem_of_cons Hr; [congruence|by eapply Hall].
      * destruct Hex as (pre & order' & post & tc' & -> & Hroute & Hlt' & Hpre & Hpost).
        exists best. split; [done|]. right.
        exists (order :: pre), order', post, tc'.
        split_and!; [done..| |done].
        intros o p c [->|Ho]%elem_of_cons Hr; [congruence|by eapply Hpre].
Qed.

(** C2: on a non-empty target list the planner enumerates every
    permutation of the targets; it values an ordering by chaining the
    searches from the start to the first target, from each target to the
    next and, when [return_to_start] is set, back to the start,
    concatenating the segment paths and summing the segment costs, and
    discards an ordering with an empty segment; it returns the path of the
    first ordering of least total cost (every earlier valid ordering costs
    strictly more, no later one costs less), and the empty path when no
    ordering is valid. *)
Theorem find_best_treasure_path_best
  (start : cell) (targets : list cell) (return_to_start : bool) :
  targets ≠ [] →
  (∀ order, order ∈ itertools.permutations targets ↔ order ≡ₚ targets) ∧
  length (itertools.permutations targets) = fact (length targets) ∧
  (∀ order, try_order ucs start return_to_start order =
            Ret (spec_route start return_to_start order)) ∧
  ∃ best,
    find_best_treasure_path start targets return_to_start = Ret best ∧
    ((best = [] ∧
      ∀ order, order ∈ itertools.permutations targets →
               spec_route start return_to_start order = None) ∨
     (∃ pre order post total,
        itertools.permutations targets = pre ++ order :: post ∧
        spec_route start return_to_start order = Some (best, total) ∧
        (∀ o p c, o ∈ pre → spec_route start return_to_start o = Some (p, c) →
                  cost_ltb total c = true) ∧
        (∀ o p c, o ∈ post → spec_route start return_to_start o = Some (p, c) →
                  cost_ltb c total = false))).
Proof.
  intros Hne. split; [apply permutations_perm|].
  split; [by apply perms_of_len_length|].
  split; [apply try_order_spec|].
  unfold find_best_treasure_path, find_best_treasure_path_with.
  destruct targets as [|t targets]; [done|].
  destruct (best_of_spec start return_to_start
              (itertools.permutations (t :: targets)) [] Infinity)
    as (best & Hrun & [[-> Hall]|Hex]).
  - exists []. split; [done|]. left. split; [done|].
    intros order Horder.
    destruct (spec_route start return_to_start order) as [[p c]|] eqn:Hroute; [|done].
    pose proof (Hall order p c Horder Hroute) as Hlt.
    apply spec_route_from_finite in Hroute as [z ->]. done.
  - destruct Hex as (pre & order & post & tc & Hperm & Hroute & _ & Hpre & Hpost).
    exists best. split; [done|]. right. exists pre, order, post, tc. done.
Qed.

(** ** Further properties of the search *)

Section Paths.

Variable sc : string → Z.
Hypothesis sc_pos : ∀ tile, 0 < sc tile.
Variables start goal : cell.

(** The returned path repeats no cell and does not pass through the start. *)
Lemma ucs_loop_simple fuel K st path c :
  inv sc start goal K st → potential start K st < Z.of_nat fuel →
  ucs_loop sc fuel goal st = Ret (path, c) → NoDup path ∧ start ∉ path.
Proof.
  revert K st. induction fuel as [|fuel IH]; intros K st Hinv Hpot.
  { pose proof (potential_nonneg sc start goal K st (proj1 Hinv)). lia. }
  rewrite ucs_loop_S. unfold heapq.heappop.
  destruct (open_set st) as [|[c0 u] rest] eqn:Hopen.
  - intros [= <- <-]. split; [constructor|apply not_elem_of_nil].
  - destruct (decide (u = goal)) as [->|Hug].
    + destruct Hinv as [Hcore Hrel].
      destruct (core_heap Hcore c0 goal) as (dg & Hdg & Hle); [rewrite Hopen; by left|].
      destruct (chain sc sc_pos start goal _ _ _ _ Hcore Hdg)
        as (l & Hrun & _ & _ & Hnd & Hdom & _).
      pose proof (chain_length _ _ Hnd Hdom) as Hlen.
      rewrite (Hrun (S (size (came_from st))) []) by lia. simpl. rewrite Hdg.
      intros [= <- <-]. rewrite <- (Permutation_rev l). split; [done|].
      intros [x Hx]%Hdom.
      by rewrite (core_start_cf Hcore) in Hx.
    + rewrite get_neighbors_nbrs. simpl.
      destruct (ucs_step sc sc_pos start goal _ _ _ _ _ Hinv Hopen Hug)
        as (K' & st' & Hrun & Hinv' & Hlt).
      unfold popped in Hrun. rewrite Hrun. simpl. apply (IH K' st' Hinv'). lia.
Qed.

Lemma ucs_with_simple path c :
  ucs_with sc start goal = Ret (path, c) → NoDup path ∧ start ∉ path.
Proof.
  unfold ucs_with. apply (ucs_loop_simple ucs_fuel []); [apply inv_init|].
  unfold potential, ucs_fuel. rewrite region_length. simpl length.
  unfold ROWS, COLS. destruct grid as [|row rows]; simpl length; nia.
Qed.

End Paths.

Lemma is_walk_app s l1 l2 :
  is_walk s (l1 ++ l2) = is_walk s l1 && is_walk (List.last l1 s) l2.
Proof.
  revert s. induction l1 as [|x l1 IH]; intros s; [done|].
  rewrite last_cons_default. simpl. by rewrite IH, andb_assoc.
Qed.

Lemma last_app_default {A : Type} (l1 l2 : list A) s :
  List.last (l1 ++ l2) s = List.last l2 (List.last l1 s).
Proof.
  revert s. induction l1 as [|x l1 IH]; intros s; [done|].
  change ((x :: l1) ++ l2) with (x :: (l1 ++ l2)).
  by rewrite !last_cons_default, IH.
Qed.

Lemma is_walk_passable s l q : is_walk s l = true → q ∈ l → passable q = true.
Proof.
  revert s. induction l as [|x l IH]; intros s; simpl.
  - by intros _ ?%elem_of_nil.
  - intros [Hx Hl]%andb_true_iff [->|Hq]%elem_of_cons; [|by eapply IH].
    by apply adjacent_nbrs, elem_of_nbrs in Hx as [? _].
Qed.

Lemma last_elem {A : Type} (l : list A) s : l ≠ [] → List.last l s ∈ l.
Proof.
  destruct l as [|x l _] using rev_ind; [done|].
  intros _. rewrite last_last. apply elem_of_app. right. by left.
Qed.

Lemma leads_trans a b c l1 l2 : leads a b l1 → leads b c l2 → leads a c (l1 ++ l2).
Proof.
  intros [Hw1 <-] [Hw2 <-]. split; [|apply last_app_default].
  by rewrite is_walk_app, Hw1, Hw2.
Qed.

(** A walk can be walked back when its first cell can be entered. *)
Lemma leads_back a b l :
  passable a = true → leads a b l → ∃ l', leads b a l'.
Proof.
  intros Ha. revert b. induction l as [|q l IH] using rev_ind; intros b.
  - intros ->%leads_nil. exists []. by apply leads_nil.
  - intros (-> & u & Hu & Hq)%leads_snoc.
    destruct (IH u Hu) as [l' Hl'].
    assert (Hpu : passable u = true).
    { destruct (leads_passable _ _ _ Hu) as [->|?]; done. }
    assert (Hstep : leads q u [u]).
    { apply (leads_snoc q u [] u). split; [done|]. exists q.
      split; [by apply leads_nil|]. apply elem_of_nbrs. split; [done|].
      apply hex_candidates_sym. by apply elem_of_nbrs in Hq as [_ ?]. }
    exists ([u] ++ l'). by eapply leads_trans.
Qed.

Lemma path_cost_length sc l :
  (∀ tile, 1 <= sc tile <= 4) →
  Z.of_nat (length l) <= path_cost sc l <= 4 * Z.of_nat (length l).
Proof.
  intros Hsc. unfold path_cost. induction l as [|x l IH]; [simpl; lia|].
  pose proof (Hsc (tile_of x)). cbn [foldr length]. lia.
Qed.

Lemma step_cost_range tile : 1 <= step_cost tile <= 4.
Proof. rewrite step_cost_values. repeat case_bool_decide; lia. Qed.

(** X1: whatever the start and the goal, the search returns a pair and
    raises nothing; every cell of the returned path is in bounds and not
    blocked, no cell occurs twice in it, the start is not one of its
    cells, and its cost, when the path is not empty, lies between half a
    unit and two units per cell (in halves: between the length and four
    times the length). *)
Theorem ucs_path_well_formed (start goal : cell) :
  ∃ path c,
    ucs start goal = Ret (path, c) ∧
    (∀ q, q ∈ path → in_bounds q = true ∧ tile_of q ≠ BLOCKED) ∧
    NoDup path ∧ start ∉ path ∧
    (path ≠ [] → ∃ z, c = Finite z ∧
                      Z.of_nat (length path) <= z <= 4 * Z.of_nat (length path)).
Proof.
  destruct (ucs_with_spec step_cost step_cost_pos start goal)
    as [(path & z & Hrun & [Hwalk Hlast] & Hcost & _)|[Hrun _]].
  - exists path, (Finite z). destruct (ucs_with_simple _ step_cost_pos _ _ _ _ Hrun).
    split_and!; [done| |done..|].
    + intros q Hq. apply passable_spec. by eapply is_walk_passable.
    + intros _. exists z. split; [done|]. rewrite Hcost.
      apply path_cost_length, step_cost_range.
  - exists [], Infinity. split_and!; [done| |constructor|apply not_elem_of_nil|done].
    by intros q ?%elem_of_nil.
Qed.

(** X2: the returned path is empty exactly when the goal is the start or
    cannot be reached; otherwise it ends at the goal. *)
Theorem ucs_path_empty_iff (start goal : cell) :
  ∃ path c,
    ucs start goal = Ret (path, c) ∧
    (path = [] ↔ goal = start ∨ ¬ reachable start goal) ∧
    (path ≠ [] → List.last path start = goal ∧ is_walk start path = true).
Proof.
  destruct (ucs_with_spec step_cost step_cost_pos start goal)
    as [(path & z & Hrun & [Hwalk Hlast] & Hcost & _)|[Hrun Hno]].
  - exists path, (Finite z).
    destruct (ucs_with_simple _ step_cost_pos _ _ _ _ Hrun) as [_ Hstart].
    split_and!; [done| |done].
    split.
    + intros ->. by left.
    + intros [->|Hno]; [|destruct Hno; by exists path].
      destruct path as [|x path]; [done|]. destruct Hstart.
      rewrite <- Hlast. by apply last_elem.
  - exists [], Infinity. split_and!; [done| |done]. split; [by right|done].
Qed.

(** X3: the search of [search.py] is optimal for its own step cost (1.0,
    2.0 on 'X1' and 'X2', 0.5 on 'R1' and 'R2'), on every rectangular
    grid: for a reachable goal it returns a walk to the goal with its
    cost, and no walk to the goal costs less; otherwise it returns the
    empty path and the infinite cost. *)
Theorem ucs_search_optimal (start goal : cell) :
  (∃ path c,
     ucs_search start goal = Ret (path, Finite c) ∧
     leads start goal path ∧ c = path_cost step_cost_search path ∧
     ∀ path', leads start goal path' → c <= path_cost step_cost_search path') ∨
  (ucs_search start goal = Ret ([], Infinity) ∧ ¬ reachable start goal).
Proof. apply (ucs_with_spec step_cost_search step_cost_search_pos). Qed.

(** X4: reaching is two-way between cells that can be entered: when the
    start is in bounds and not blocked and the search from it to another
    cell finds a path, the search back finds one too. *)
Theorem ucs_two_way (a b : cell) :
  in_bounds a = true → tile_of a ≠ BLOCKED → a ≠ b →
  ∀ path c, ucs a b = Ret (path, c) → path ≠ [] →
  ∃ path' z, ucs b a = Ret (path', Finite z) ∧ path' ≠ [] ∧ leads b a path'.
Proof.
  intros Hb Ht Hab path c Hrun Hpath.
  assert (Hpa : passable a = true) by by apply passable_spec.
  assert (Hreach : reachable a b).
  { destruct (ucs_with_spec step_cost step_cost_pos a b)
      as [(p & z & Hrun' & Hl & _)|[Hrun' _]].
    - by exists p.
    - unfold ucs in Hrun. rewrite Hrun' in Hrun. by simplify_eq. }
  destruct Hreach as [l Hl]. destruct (leads_back _ _ _ Hpa Hl) as [l' Hl'].
  destruct (ucs_with_spec step_cost step_cost_pos b a)
    as [(p & z & Hrun' & Hp & _)|[_ Hno]]; [|destruct Hno; by exists l'].
  exists p, z. split_and!; [done| |done].
  intros ->. apply leads_nil in Hp. done.
Qed.

(** ** Further properties of the neighbours *)

Lemma hex_candidates_nodup p : NoDup (hex_candidates p).
Proof.
  destruct p as [r c]. unfold hex_candidates. simpl.
  destruct (Z.even c); simpl;
    repeat (apply NoDup_cons; split;
            [rewrite ?not_elem_of_cons; repeat split;
             try apply not_elem_of_nil; intros Heq; inversion Heq; lia|]);
    apply NoDup_nil_2.
Qed.

Lemma hex_candidates_near p q :
  q ∈ hex_candidates p →
  q ≠ p ∧ -1 <= q.1 - p.1 <= 1 ∧ -1 <= q.2 - p.2 <= 1.
Proof.
  destruct p as [r c]. unfold hex_candidates. simpl.
  destruct (Z.even c); simpl; rewrite !elem_of_cons, elem_of_nil;
    intros Hq; decompose [or] Hq; subst; simpl;
    try done; (split; [intros Heq; inversion Heq; lia|lia]).
Qed.

(** X5: the cells [get_neighbors] returns are pairwise distinct, none is
    the cell itself, and each is at most one row and one column away. *)
Theorem get_neighbors_distinct (p : cell) :
  ∃ l, get_neighbors p = Ret l ∧ NoDup l ∧ p ∉ l ∧
       ∀ q, q ∈ l → -1 <= q.1 - p.1 <= 1 ∧ -1 <= q.2 - p.2 <= 1.
Proof.
  exists (nbrs p). split; [apply get_neighbors_nbrs|].
  rewrite nbrs_hex_candidates. split_and!.
  - apply NoDup_filter, hex_candidates_nodup.
  - intros [_ Hp]%list_elem_of_filter. by destruct (hex_candidates_near _ _ Hp).
  - intros q [_ Hq]%list_elem_of_filter. by destruct (hex_candidates_near _ _ Hq).
Qed.

(** ** Further properties of the planner *)

Lemma path_cost_app sc l1 l2 :
  path_cost sc (l1 ++ l2) = path_cost sc l1 + path_cost sc l2.
Proof.
  unfold path_cost. induction l1 as [|x l1 IH]; simpl; [done|].
  rewrite IH. lia.
Qed.

Lemma shortest_path_segment a b q seg :
  (shortest_path a b).1 = q :: seg →
  leads a b (q :: seg) ∧
  (shortest_path a b).2 = Finite (path_cost step_cost (q :: seg)).
Proof.
  intros Hseg. pose proof (ucs_shortest_path a b) as Hrun.
  destruct (ucs_with_spec step_cost step_cost_pos a b)
    as [(p & z & Hrun' & Hl & Hcost & _)|[Hrun' _]];
    unfold ucs in Hrun; rewrite Hrun' in Hrun; simplify_eq.
  - destruct (shortest_path a b) as [p' c']. simpl in *. by simplify_eq.
  - destruct (shortest_path a b) as [p' c']. simpl in *. by simplify_eq.
Qed.

Lemma shortest_path_found a b :
  a ≠ b → reachable a b → (shortest_path a b).1 ≠ [].
Proof.
  intros Hab [l Hl] Hnil. pose proof (ucs_shortest_path a b) as Hrun.
  destruct (ucs_with_spec step_cost step_cost_pos a b)
    as [(p & z & Hrun' & Hp & _)|[_ Hno]]; [|destruct Hno; by exists l].
  unfold ucs in Hrun. rewrite Hrun' in Hrun. simplify_eq.
  destruct (shortest_path a b) as [p' c']. simpl in *. simplify_eq.
  apply leads_nil in Hp. done.
Qed.

(** A route is a walk through all its stops, of the summed cost. *)
Lemma spec_route_from_walk pos stops p c :
  spec_route_from pos stops = Some (p, c) →
  leads pos (List.last stops pos) p ∧
  c = Finite (path_cost step_cost p) ∧
  (∀ t, t ∈ stops → t ∈ p) ∧
  (stops ≠ [] → p ≠ []).
Proof.
  revert pos p c. induction stops as [|t rest IH]; intros pos p c.
  - simpl. intros [= <- <-]. split_and!; [by apply leads_nil|done| |done].
    by intros t ?%elem_of_nil.
  - rewrite last_cons_default. simpl.
    destruct (shortest_path pos t).1 as [|q seg] eqn:Hseg; [done|].
    destruct (shortest_path_segment _ _ _ _ Hseg) as [Hl Hc].
    destruct (spec_route_from t rest) as [[p' c']|] eqn:Hrest; [|done].
    destruct (IH _ _ _ Hrest) as (Hl' & -> & Hall & _).
    simpl. rewrite Hc. intros [= <- <-]. split_and!.
    + change (q :: seg ++ p') with ((q :: seg) ++ p'). by eapply leads_trans.
    + change (q :: seg ++ p') with ((q :: seg) ++ p').
      by rewrite path_cost_app.
    + intros x [->|Hx]%elem_of_cons.
      * change (q :: seg ++ p') with ((q :: seg) ++ p'). apply elem_of_app. left.
        destruct Hl as [_ <-]. by apply last_elem.
      * change (q :: seg ++ p') with ((q :: seg) ++ p'). apply elem_of_app. right.
        by apply Hall.
    + done.
Qed.

(** The hops of a chain of searches: each from one cell to another one
    that can be reached. *)
Fixpoint hops_ok (pos : cell) (stops : list cell) : Prop :=
  match stops with
  | [] => True
  | t :: rest => pos ≠ t ∧ reachable pos t ∧ hops_ok t rest
  end.

Lemma spec_route_from_ok pos stops :
  hops_ok pos stops → is_Some (spec_route_from pos stops).
Proof.
  revert pos. induction stops as [|t rest IH]; intros pos; simpl; [eauto|].
  intros (Hne & Hreach & Hrest).
  pose proof (shortest_path_found _ _ Hne Hreach) as Hseg.
  destruct (shortest_path pos t).1 as [|q seg]; [done|].
  destruct (IH t Hrest) as [pc ->]. eauto.
Qed.

Lemma hops_ok_app pos l1 l2 :
  hops_ok pos l1 → hops_ok (List.last l1 pos) l2 → hops_ok pos (l1 ++ l2).
Proof.
  revert pos. induction l1 as [|t l1 IH]; intros pos; [done|].
  rewrite last_cons_default. simpl. intros (? & ? & ?) ?. auto.
Qed.

Lemma hops_ok_nodup pos stops :
  NoDup (pos :: stops) →
  (∀ x y, x ∈ pos :: stops → y ∈ pos :: stops → reachable x y) →
  hops_ok pos stops.
Proof.
  revert pos. induction stops as [|t rest IH]; intros pos Hnd Hreach; [done|].
  apply NoDup_cons in Hnd as [Hpos Hnd]. simpl. split_and!.
  - intros ->. apply Hpos. by left.
  - apply Hreach; [by left|right; by left].
  - apply IH; [done|]. intros x y Hx Hy. apply Hreach; by right.
Qed.

(** With a start that can be entered, the start and the cells reachable
    from it reach one another. *)
Lemma hub_reachable start x y :
  passable start = true →
  (x = start ∨ reachable start x) → (y = start ∨ reachable start y) →
  reachable x y.
Proof.
  intros Hs Hx Hy.
  assert (Hback : reachable x start).
  { destruct Hx as [->|[l Hl]]; [exists []; by apply leads_nil|].
    by eapply leads_back. }
  assert (Hfwd : reachable start y).
  { destruct Hy as [->|?]; [exists []; by apply leads_nil|done]. }
  destruct Hback as [l1 H1], Hfwd as [l2 H2]. exists (l1 ++ l2).
  by eapply leads_trans.
Qed.

Lemma spec_route_valid start rts targets order :
  passable start = true → NoDup targets → start ∉ targets → targets ≠ [] →
  (∀ t, t ∈ targets → reachable start t) →
  order ≡ₚ targets → is_Some (spec_route start rts order).
Proof.
  intros Hs Hnd Hstart Hne Hreach Hperm. unfold spec_route.
  assert (Hhub : ∀ x y, x ∈ start :: order → y ∈ start :: order → reachable x y).
  { intros x y Hx Hy. apply (hub_reachable start); [done| |].
    - apply elem_of_cons in Hx as [->|Hx]; [by left|right].
      apply Hreach. by rewrite <- Hperm.
    - apply elem_of_cons in Hy as [->|Hy]; [by left|right].
      apply Hreach. by rewrite <- Hperm. }
  assert (Hnd' : NoDup (start :: order)).
  { apply NoDup_cons. rewrite Hperm. done. }
  apply spec_route_from_ok, hops_ok_app; [by apply hops_ok_nodup|].
  destruct rts; [|done]. simpl.
  assert (Hlast : List.last order start ∈ order).
  { apply last_elem. intros ->. apply Permutation_nil_l in Hperm. by subst. }
  split_and!; [|by apply Hhub; [right|left]|done].
  intros Heq. apply Hstart. rewrite <- Hperm. by rewrite Heq in Hlast.
Qed.

(** The loop over the orderings from the initial best: no valid ordering,
    or a valid ordering of least cost. *)
Lemma best_of_least start rts orders :
  ∃ best,
    best_of ucs start rts orders [] Infinity = Ret best ∧
    ((best = [] ∧ ∀ o, o ∈ orders → spec_route start rts o = None) ∨
     (∃ order z,
        order ∈ orders ∧ spec_route start rts order = Some (best, Finite z) ∧
        ∀ o p c, o ∈ orders → spec_route start rts o = Some (p, Finite c) → z <= c)).
Proof.
  destruct (best_of_spec start rts orders [] Infinity)
    as (best & Hrun & [[Hnil Hall]|Hex]); exists best; (split; [done|]).
  - left. split; [done|]. intros o Ho.
    destruct (spec_route start rts o) as [[p c]|] eqn:Hroute; [|done].
    pose proof (Hall o p c Ho Hroute) as Hlt.
    apply spec_route_from_finite in Hroute as [z ->]. done.
  - right. destruct Hex as (pre & order & post & tc & -> & Hroute & _ & Hpre & Hpost).
    pose proof Hroute as Hfin. apply spec_route_from_finite in Hfin as [z ->].
    exists order, z. split_and!; [set_solver|done|].
    intros o p c Ho Hr. apply elem_of_app in Ho as [Ho|Ho].
    + specialize (Hpre o p _ Ho Hr). simpl in Hpre. lia.
    + apply elem_of_cons in Ho as [->|Ho].
      * rewrite Hroute in Hr. simplify_eq. lia.
      * specialize (Hpost o p _ Ho Hr). simpl in Hpost. lia.
Qed.

Lemma find_best_treasure_path_unfold start targets rts :
  targets ≠ [] →
  find_best_treasure_path start targets rts =
  best_of ucs start rts (itertools.permutations targets) [] Infinity.
Proof. by destruct targets. Qed.

(** X6: a non-empty route returned by the planner is a walk from the
    start over cells that are in bounds and not blocked, and it passes
    through every target; it ends at the start when [return_to_start] is
    set and at one of the targets otherwise. *)
Theorem find_best_treasure_path_covers
  (start : cell) (targets : list cell) (return_to_start : bool) :
  ∃ best,
    find_best_treasure_path start targets return_to_start = Ret best ∧
    (best ≠ [] →
     is_walk start best = true ∧
     (∀ q, q ∈ best → in_bounds q = true ∧ tile_of q ≠ BLOCKED) ∧
     (∀ t, t ∈ targets → t ∈ best) ∧
     (return_to_start = true → List.last best start = start) ∧
     (return_to_start = false → List.last best start ∈ targets)).
Proof.
  unfold find_best_treasure_path, find_best_treasure_path_with.
  destruct targets as [|t0 targets]; [by exists []|].
  destruct (best_of_least start return_to_start (itertools.permutations (t0 :: targets)))
    as (best & Hrun & [[Hnil _]|(order & z & Horder & Hroute & _)]);
    exists best; (split; [done|]); [done|].
  intros _. apply permutations_perm in Horder.
  unfold spec_route in Hroute.
  destruct (spec_route_from_walk _ _ _ _ Hroute) as ([Hwalk Hlast] & _ & Hall & _).
  split_and!.
  - done.
  - intros q Hq. apply passable_spec. by eapply is_walk_passable.
  - intros t Ht. apply Hall, elem_of_app. left. by rewrite Horder.
  - intros ->. by rewrite Hlast, last_last.
  - intros ->. rewrite Hlast, app_nil_r, <- Horder. apply last_elem.
    intros ->. by apply Permutation_nil_l in Horder.
Qed.

(** X7: when the start is in bounds and not blocked and the targets are
    pairwise distinct, differ from the start and can each be reached from
    it, the planner returns a non-empty route. *)
Theorem find_best_treasure_path_finds
  (start : cell) (targets : list cell) (return_to_start : bool) :
  in_bounds start = true → tile_of start ≠ BLOCKED →
  targets ≠ [] → NoDup targets → start ∉ targets →
  (∀ t, t ∈ targets → reachable start t) →
  ∃ best, find_best_treasure_path start targets return_to_start = Ret best ∧
          best ≠ [].
Proof.
  intros Hb Ht Hne Hnd Hstart Hreach.
  assert (Hs : passable start = true) by by apply passable_spec.
  rewrite find_best_treasure_path_unfold by done.
  destruct (best_of_least start return_to_start (itertools.permutations targets))
    as (best & Hrun & [[_ Hnone]|(order & z & Horder & Hroute & _)]);
    exists best; (split; [done|]).
  - specialize (Hnone targets (proj2 (permutations_perm _ _) (reflexivity _))).
    destruct (spec_route_valid start return_to_start targets targets) as [pc Hpc];
      try done. congruence.
  - apply permutations_perm in Horder. unfold spec_route in Hroute.
    destruct (spec_route_from_walk _ _ _ _ Hroute) as (_ & _ & _ & Hnonempty).
    apply Hnonempty. intros [Hnil _]%app_eq_nil. subst order.
    apply Permutation_nil_l in Horder. congruence.
Qed.

(** X8: the cost of the returned route does not depend on the order in
    which the targets are listed: on two listings of the same targets the
    planner returns routes of the same cost, both empty or both not. *)
Theorem find_best_treasure_path_listing
  (start : cell) (targets targets' : list cell) (return_to_start : bool) :
  targets ≡ₚ targets' →
  ∃ best best',
    find_best_treasure_path start targets return_to_start = Ret best ∧
    find_best_treasure_path start targets' return_to_start = Ret best' ∧
    path_cost step_cost best = path_cost step_cost best' ∧
    (best = [] ↔ best' = []).
Proof.
  intros Hperm.
  destruct (decide (targets = [])) as [->|Hne].
  { apply Permutation_nil_l in Hperm. subst targets'. exists [], []. by split_and!. }
  assert (Hne' : targets' ≠ []).
  { intros ->. by apply Permutation_nil_r in Hperm. }
  rewrite !find_best_treasure_path_unfold by done.
  assert (Hsame : ∀ o, o ∈ itertools.permutations targets ↔
                       o ∈ itertools.permutations targets').
  { intros o. rewrite !permutations_perm. by rewrite Hperm. }
  assert (Hfull : ∀ order p c, order ∈ itertools.permutations targets →
            spec_route start return_to_start order = Some (p, c) →
            p ≠ [] ∧ c = Finite (path_cost step_cost p)).
  { intros order p c Horder Hroute. apply permutations_perm in Horder.
    unfold spec_route in Hroute.
    destruct (spec_route_from_walk _ _ _ _ Hroute) as (_ & -> & _ & Hnonempty).
    split; [|done]. apply Hnonempty. intros [Hnil _]%app_eq_nil. subst order.
    apply Permutation_nil_l in Horder. congruence. }
  destruct (best_of_least start return_to_start (itertools.permutations targets))
    as (best & Hrun & Hbest).
  destruct (best_of_least start return_to_start (itertools.permutations targets'))
    as (best' & Hrun' & Hbest').
  exists best, best'. split; [done|]. split; [done|].
  destruct Hbest as [[-> Hnone]|(order & z & Horder & Hroute & Hmin)],
    Hbest' as [[-> Hnone']|(order' & z' & Horder' & Hroute' & Hmin')].
  - done.
  - apply Hsame in Horder'. rewrite (Hnone order' Horder') in Hroute'. done.
  - apply Hsame in Horder. rewrite (Hnone' order Horder) in Hroute. done.
  - destruct (Hfull _ _ _ Horder Hroute) as [Hb [= Hz]].
    destruct (Hfull _ _ _ (proj2 (Hsame _) Horder') Hroute') as [Hb' [= Hz']].
    pose proof (Hmin order' best' z' (proj2 (Hsame _) Horder') Hroute').
    pose proof (Hmin' order best z (proj1 (Hsame _) Horder) Hroute).
    split; [lia|]. split; intros ?; done.
Qed.

(** ** The planner of [search.py] (lines 2-25)

    It has no guard on an empty list and no way back to the start; its
    loop over the targets is the one of [map.py] ([visit]). *)

Section PlannerSearch.

Variable search : cell → cell → res (list cell * cost).

(** One ordering (lines 7-19). *)
Definition try_order_search (start_pos : cell) (order : list cell)
  : res (option (list cell * cost)) :=
  r ← visit search order start_pos [] (Finite 0);
  match r with
  | None => Ret None
  | Some (_, total_path, total_cost) => Ret (Some (total_path, total_cost))
  end.

(** The loop over the orderings (lines 6-23). *)
Fixpoint best_of_search (start_pos : cell) (orders : list (list cell))
  (best_path : list cell) (min_total_cost : cost) : res (list cell) :=
  match orders with
  | [] => Ret best_path
  | order :: rest =>
      r ← try_order_search start_pos order;
      match r with
      | Some (total_path, total_cost) =>
          if cost_ltb total_cost min_total_cost
          then best_of_search start_pos rest total_path total_cost
          else best_of_search start_pos rest best_path min_total_cost
      | None => best_of_search start_pos rest best_path min_total_cost
      end
  end.

Definition find_best_treasure_path_search_with (start_pos : cell) (treasures : list cell)
  : res (list cell) :=
  best_of_search start_pos (itertools.permutations treasures) [] Infinity.

Lemma try_order_search_false start_pos order :
  try_order_search start_pos order = try_order search start_pos false order.
Proof.
  unfold try_order_search, try_order.
  destruct (visit search order start_pos [] (Finite 0)) as [[[[pos tp] tc]|]| |]; done.
Qed.

Lemma best_of_search_false start_pos orders best_path min_total_cost :
  best_of_search start_pos orders best_path min_total_cost =
  best_of search start_pos false orders best_path min_total_cost.
Proof.
  revert best_path min_total_cost.
  induction orders as [|order rest IH]; intros bp m; [done|].
  cbn [best_of_search best_of]. rewrite try_order_search_false.
  destruct (try_order search start_pos false order) as [[[tp tc]|]| |]; simpl; try done.
  destruct (cost_ltb tc m); apply IH.
Qed.

End PlannerSearch.

Definition find_best_treasure_path_search : cell → list cell → res (list cell) :=
  find_best_treasure_path_search_with ucs_search.

(** X9: whatever search function the two planners call, the planner of
    [search.py] returns what the planner of [map.py] returns with
    [return_to_start] false, the empty target list included (where
    [search.py] runs its loop on the one empty ordering and [map.py]
    returns at once). *)
Theorem find_best_treasure_path_search_same
  (search : cell → cell → res (list cell * cost)) (start : cell) (treasures : list cell) :
  find_best_treasure_path_search_with search start treasures =
  find_best_treasure_path_with search start treasures false.
Proof.
  unfold find_best_treasure_path_search_with, find_best_treasure_path_with.
  destruct treasures as [|t treasures]; [done|].
  apply best_of_search_false.
Qed.

Lemma visit_ext (s1 s2 : cell → cell → res (list cell * cost)) order pos tp tc :
  (∀ a b, s1 a b = s2 a b) → visit s1 order pos tp tc = visit s2 order pos tp tc.
Proof.
  intros Hs. revert pos tp tc. induction order as [|t rest IH]; intros pos tp tc; [done|].
  simpl. rewrite Hs. destruct (s2 pos t) as [[p c]| |]; simpl; try done.
  destruct p; [done|apply IH].
Qed.

Lemma best_of_ext (s1 s2 : cell → cell → res (list cell * cost)) start rts orders bp m :
  (∀ a b, s1 a b = s2 a b) →
  best_of s1 start rts orders bp m = best_of s2 start rts orders bp m.
Proof.
  intros Hs. revert bp m. induction orders as [|order rest IH]; intros bp m; [done|].
  cbn [best_of]. unfold try_order. rewrite (visit_ext s1 s2) by done.
  destruct (visit s2 order start [] (Finite 0)) as [[[[pos tp] tc]|]| |]; simpl; try done.
  destruct rts; simpl.
  - rewrite Hs. destruct (s2 pos start) as [[p c]| |]; simpl; try done.
    destruct p; simpl; [apply IH|]. destruct (cost_ltb _ m); apply IH.
  - destruct (cost_ltb tc m); apply IH.
Qed.

Lemma ucs_search_same start goal : no_x3_x4 → ucs_search start goal = ucs start goal.
Proof.
  intros Hno. unfold ucs_search, ucs, ucs_with.
  apply ucs_loop_agree. intros row tile Hrow Htile.
  unfold no_x3_x4 in Hno. rewrite Forall_forall in Hno.
  specialize (Hno row Hrow). rewrite Forall_forall in Hno.
  destruct (Hno tile Htile). by apply step_cost_search_agree.
Qed.

(** X10: on a grid without 'X3' and 'X4' tiles the planner of
    [search.py], with the search of [search.py], returns the route the
    planner of [map.py] returns with [return_to_start] false. *)
Theorem find_best_treasure_path_search_agrees (start : cell) (treasures : list cell) :
  no_x3_x4 →
  find_best_treasure_path_search start treasures =
  find_best_treasure_path start treasures false.
Proof.
  intros Hno. unfold find_best_treasure_path_search, find_best_treasure_path.
  unfold find_best_treasure_path_search_with, find_best_treasure_path_with.
  destruct treasures as [|t treasures].
  - unfold itertools.permutations. simpl. unfold try_order_search. simpl. done.
  - rewrite best_of_search_false. apply best_of_ext.
    intros a b. by apply ucs_search_same.
Qed.

(** ** [find_start] ([map.py], lines 90-95) *)

(** The loop over the columns of row [r]. *)
Fixpoint find_start_row (r : Z) (cs : list Z) : res (option cell) :=
  match cs with
  | [] => Ret None
  | c :: cs' =>
      tile ← grid_at r c;
      if String.eqb tile START then Ret (Some (r, c)) else find_start_row r cs'
  end.

(** The loop over the rows; [(0, 0)] when no tile is the start. *)
Fixpoint find_start_rows (rs : list Z) : res cell :=
  match rs with
  | [] => Ret (0, 0)
  | r :: rs' =>
      found ← find_start_row r (seqZ 0 COLS);
      match found with
      | Some p => Ret p
      | None => find_start_rows rs'
      end
  end.

Definition find_start : res cell := find_start_rows (seqZ 0 ROWS).

Lemma find_start_row_spec r a n :
  0 <= r < ROWS → 0 <= a → 0 <= n → a + n <= COLS →
  ∃ found,
    find_start_row r (seqZ a n) = Ret found ∧
    match found with
    | Some p =>
        p.1 = r ∧ a <= p.2 < a + n ∧ tile_of p = START ∧
        ∀ c, a <= c < p.2 → tile_of (r, c) ≠ START
    | None => ∀ c, a <= c < a + n → tile_of (r, c) ≠ START
    end.
Proof.
  intros Hr Ha Hn. remember (Z.to_nat n) as k eqn:Hk.
  revert a n Ha Hn Hk. induction k as [|k IH]; intros a n Ha Hn Hk Hle.
  - assert (n = 0) as -> by lia. exists None. split; [done|]. intros c. lia.
  - rewrite seqZ_cons by lia. simpl.
    assert (Hb : in_bounds (r, a) = true) by (unfold in_bounds; simpl; lia).
    rewrite (grid_at_tile_of _ _ Hb). simpl.
    destruct (String.eqb_spec (tile_of (r, a)) START) as [Heq|Hneq].
    + exists (Some (r, a)). split; [done|]. simpl. split_and!; try done; lia.
    + destruct (IH (Z.succ a) (Z.pred n)) as (found & Hrun & Hfound); try lia.
      exists found. split; [done|]. destruct found as [p|].
      * destruct Hfound as (? & ? & ? & Hbefore). split_and!; try done; try lia.
        intros c Hc. destruct (decide (c = a)) as [->|?]; [done|]. apply Hbefore. lia.
      * intros c Hc. destruct (decide (c = a)) as [->|?]; [done|]. apply Hfound. lia.
Qed.

Lemma find_start_rows_spec a n :
  0 <= a → 0 <= n → a + n <= ROWS →
  ∃ p,
    find_start_rows (seqZ a n) = Ret p ∧
    ((in_bounds p = true ∧ a <= p.1 < a + n ∧ tile_of p = START ∧
      ∀ q, in_bounds q = true → a <= q.1 → tile_of q = START →
           p.1 < q.1 ∨ (p.1 = q.1 ∧ p.2 <= q.2)) ∨
     (p = (0, 0) ∧
      ∀ q, in_bounds q = true → a <= q.1 < a + n → tile_of q ≠ START)).
Proof.
  intros Ha Hn. remember (Z.to_nat n) as k eqn:Hk.
  revert a n Ha Hn Hk. induction k as [|k IH]; intros a n Ha Hn Hk Hle.
  - assert (n = 0) as -> by lia. exists (0, 0). split; [done|]. right.
    split; [done|]. intros q _ Hq. lia.
  - rewrite seqZ_cons by lia. cbn [find_start_rows].
    assert (HC : 0 <= COLS) by (unfold COLS; destruct grid; lia).
    destruct (find_start_row_spec a 0 COLS) as (found & Hrun & Hfound); try lia.
    rewrite Hrun. simpl. destruct found as [p|].
    + destruct Hfound as (Hp1 & Hp2 & Htile & Hbefore).
      exists p. split; [done|]. left. split_and!; try done; try lia.
      * unfold in_bounds. destruct p as [pr pc]. simpl in *. lia.
      * intros [qr qc] Hq Hqa Hqt. simpl in *.
        destruct (decide (qr = a)) as [->|?]; [|left; lia]. right.
        split; [done|]. destruct (decide (p.2 <= qc)) as [?|Hlt]; [done|].
        destruct (Hbefore qc); [|done]. unfold in_bounds in Hq. simpl in Hq. lia.
    + destruct (IH (Z.succ a) (Z.pred n)) as (p & Hrun' & Hp); try lia.
      exists p. split; [done|].
      destruct Hp as [(Hb & Hrange & Htile & Hfirst)|[-> Hnone]].
      * left. split_and!; try done; try lia.
        intros [qr qc] Hq Hqa Hqt. simpl in *.
        destruct (decide (qr = a)) as [->|?]; [|apply (Hfirst (qr, qc)); simpl; try done; lia].
        destruct (Hfound qc); [|done]. unfold in_bounds in Hq. simpl in Hq. lia.
      * right. split; [done|]. intros [qr qc] Hq Hqa. simpl in *.
        destruct (decide (qr = a)) as [->|?]; [|apply (Hnone (qr, qc)); simpl; try done; lia].
        apply Hfound. unfold in_bounds in Hq. simpl in Hq. lia.
Qed.

(** X11: [find_start] raises nothing; it returns the first cell, in
    row-major order, whose tile is the start tile when there is one, and
    [(0, 0)] when no cell of the grid holds the start tile. *)
Theorem find_start_first :
  ∃ p,
    find_start = Ret p ∧
    ((in_bounds p = true ∧ tile_of p = START ∧
      ∀ q, in_bounds q = true → tile_of q = START →
           p.1 < q.1 ∨ (p.1 = q.1 ∧ p.2 <= q.2)) ∨
     (p = (0, 0) ∧ ∀ q, in_bounds q = true → tile_of q ≠ START)).
Proof.
  assert (HR : 0 <= ROWS) by (unfold ROWS; lia).
  destruct (find_start_rows_spec 0 ROWS) as (p & Hrun & Hp); try lia.
  exists p. split; [done|].
  destruct Hp as [(Hb & _ & Htile & Hfirst)|[-> Hnone]].
  - left. split_and!; try done. intros q Hq Hqt. apply Hfirst; try done.
    unfold in_bounds in Hq. lia.
  - right. split; [done|]. intros q Hq. apply Hnone; [done|].
    unfold in_bounds in Hq. lia.
Qed.

(** X16: the costs of the searches obey the triangle inequality: when
    the search finds a path from [a] to [b] and one from [b] to [c], it
    finds one from [a] to [c] that costs no more than the two together. *)
Theorem ucs_triangle (a b c : cell) (p1 p2 : list cell) (x y : Z) :
  ucs a b = Ret (p1, Finite x) → ucs b c = Ret (p2, Finite y) →
  ∃ p z, ucs a c = Ret (p, Finite z) ∧ z <= x + y.
Proof.
  intros H1 H2.
  assert (Hl1 : leads a b p1 ∧ x = path_cost step_cost p1).
  { destruct (ucs_with_spec step_cost step_cost_pos a b)
      as [(p & z & Hrun & Hl & Hc & _)|[Hrun _]];
      unfold ucs in H1; rewrite Hrun in H1; by simplify_eq. }
  assert (Hl2 : leads b c p2 ∧ y = path_cost step_cost p2).
  { destruct (ucs_with_spec step_cost step_cost_pos b c)
      as [(p & z & Hrun & Hl & Hc & _)|[Hrun _]];
      unfold ucs in H2; rewrite Hrun in H2; by simplify_eq. }
  destruct Hl1 as [Hl1 ->], Hl2 as [Hl2 ->].
  pose proof (leads_trans _ _ _ _ _ Hl1 Hl2) as Hl.
  destruct (ucs_with_spec step_cost step_cost_pos a c)
    as [(p & z & Hrun & _ & _ & Hopt)|[_ Hno]]; [|destruct Hno; by eexists].
  exists p, z. split; [done|]. rewrite <- path_cost_app. by apply Hopt.
Qed.

(** X17: coming back costs: when the planner finds a route that returns
    to the start, it finds a strictly cheaper one without the return. *)
Theorem find_best_treasure_path_return (start : cell) (targets best_t : list cell) :
  find_best_treasure_path start targets true = Ret best_t → best_t ≠ [] →
  ∃ best_f,
    find_best_treasure_path start targets false = Ret best_f ∧ best_f ≠ [] ∧
    path_cost step_cost best_f < path_cost step_cost best_t.
Proof.
  intros Hrun_t Hne_t.
  destruct (decide (targets = [])) as [->|Hne].
  { unfold find_best_treasure_path in Hrun_t. simpl in Hrun_t. by simplify_eq. }
  rewrite find_best_treasure_path_unfold in * by done.
  destruct (best_of_least start true (itertools.permutations targets))
    as (best & Hrun & Hbest). rewrite Hrun in Hrun_t. simplify_eq.
  destruct Hbest as [[-> _]|(order & z & Horder & Hroute & _)]; [done|].
  assert (Hon : order ≠ []).
  { apply permutations_perm in Horder. intros ->.
    apply Permutation_nil_l in Horder. congruence. }
  unfold spec_route in Hroute. rewrite spec_route_from_app in Hroute.
  destruct (spec_route_from start order) as [[pf cf]|] eqn:Hopen; [|done].
  destruct (spec_route_from (List.last order start) [start]) as [[pr cr]|] eqn:Hback;
    [|done].
  simpl in Hroute. injection Hroute as <- Hcost.
  destruct (spec_route_from_walk _ _ _ _ Hopen) as (_ & -> & _ & Hpf).
  destruct (spec_route_from_walk _ _ _ _ Hback) as (_ & -> & _ & Hpr).
  simpl in Hcost. injection Hcost as <-.
  assert (Hpos : 0 < path_cost step_cost pr).
  { pose proof (path_cost_length step_cost pr step_cost_range).
    destruct pr; [by destruct Hpr|]. simpl length in *. lia. }
  destruct (best_of_least start false (itertools.permutations targets))
    as (best_f & Hrun_f & [[-> Hnone]|(order' & z' & Horder' & Hroute' & Hmin)]).
  - specialize (Hnone order Horder). unfold spec_route in Hnone.
    rewrite app_nil_r in Hnone. congruence.
  - exists best_f. split; [done|].
    assert (Hon' : order' ≠ []).
    { apply permutations_perm in Horder'. intros ->.
      apply Permutation_nil_l in Horder'. congruence. }
    pose proof Hroute' as Hr'. unfold spec_route in Hr'. rewrite app_nil_r in Hr'.
    destruct (spec_route_from_walk _ _ _ _ Hr') as (_ & [= ->] & _ & Hbf).
    split; [by apply Hbf|].
    assert (Hle : path_cost step_cost best_f <= path_cost step_cost pf).
    { apply (Hmin order pf); [done|]. unfold spec_route. by rewrite app_nil_r. }
    rewrite path_cost_app. lia.
Qed.

(** The cells of a planned route can be entered. *)
Lemma find_best_treasure_path_passable start targets rts :
  ∃ best, find_best_treasure_path start targets rts = Ret best ∧
          ∀ q, q ∈ best → passable q = true.
Proof.
  destruct (decide (targets = [])) as [->|Hne].
  { exists []. split; [done|]. by intros q ?%elem_of_nil. }
  rewrite find_best_treasure_path_unfold by done.
  destruct (best_of_least start rts (itertools.permutations targets))
    as (best & Hrun & [[-> _]|(order & z & Horder & Hroute & _)]).
  - exists []. split; [done|]. by intros q ?%elem_of_nil.
  - exists best. split; [done|]. unfold spec_route in Hroute.
    destruct (spec_route_from_walk _ _ _ _ Hroute) as ([Hwalk _] & _).
    intros q Hq. by eapply is_walk_passable.
Qed.

End Grid.

(** ** The game loop ([map.py], lines 194-196 and 293-374)

    The state of the loop of [main] with the globals it updates.  Drawing
    writes to the screen only and is left out; what the loop reads from
    [pygame] in one frame is an input: the events, and the keys held
    down.  For a mouse click the loop uses [pixel_to_hex] only to test
    whether the click hit a tile, and the event carries that answer.  The
    set [all_treasures] is kept as the list of its elements in the order
    Python iterates them. *)

Inductive event : Type :=
  | QUIT
  | MOUSEBUTTONDOWN (on_tile : bool)
  | KEYDOWN (space : bool)
  | OTHER_EVENT.

Inductive arrow : Type := K_UP | K_DOWN | K_LEFT | K_RIGHT.

(** The dictionary [directions], in insertion order (lines 361-366). *)
Definition directions : list (arrow * (Z * Z)) :=
  [(K_UP, (-1, 0)); (K_DOWN, (1, 0)); (K_LEFT, (0, -1)); (K_RIGHT, (0, 1))].

Record game : Type := Game {
  game_grid : list (list string);
  player : cell;
  path : list cell;
  running : bool;
  health : Z;
  collected_treasures : gset cell;
  all_treasures : list cell
}.

(** [l[i] = x] on a Python list. *)
Definition py_setitem {A : Type} (l : list A) (i : Z) (x : A) : res (list A) :=
  let n := Z.of_nat (length l) in
  let j := if i <? 0 then i + n else i in
  if (0 <=? j) && (j <? n) then Ret (<[Z.to_nat j := x]> l)
  else Raise IndexError.

(** [grid[r][c] = tile]: the row is updated in place. *)
Definition grid_set (grid : list (list string)) (r c : Z) (tile : string)
  : res (list (list string)) :=
  row ← py_index grid r;
  row' ← py_setitem row c tile;
  py_setitem grid r row'.

(** [s.remove(p)] on a set. *)
Definition set_remove (s : list cell) (p : cell) : res (list cell) :=
  if bool_decide (p ∈ s) then Ret (filter (λ q, q ≠ p) s) else Raise KeyError.

(** Trap 'X4' (lines 319-322): the loop over a copy of [all_treasures]. *)
Fixpoint destroy_uncollected (todo : list cell) (collected : gset cell)
  (grid : list (list string)) (treasures : list cell)
  : res (list (list string) * list cell) :=
  match todo with
  | [] => Ret (grid, treasures)
  | p :: rest =>
      if bool_decide (p ∈ collected) then
        destroy_uncollected rest collected grid treasures
      else
        grid' ← grid_set grid p.1 p.2 EMPTY;
        treasures' ← set_remove treasures p;
        destroy_uncollected rest collected grid' treasures'
  end.

(** One event (lines 345-357), on the player, the path and [running]. *)
Definition handle_event (grid : list (list string)) (treasures : list cell)
  (collected : gset cell) (st : cell * list cell * bool) (ev : event)
  : res (cell * list cell * bool) :=
  match ev with
  | QUIT => Ret (st.1.1, st.1.2, false)
  | MOUSEBUTTONDOWN on_tile =>
      if on_tile then
        let remaining_treasures := filter (λ t, t ∉ collected) treasures in
        match remaining_treasures with
        | [] => Ret st
        | _ :: _ =>
            path' ← find_best_treasure_path grid st.1.1 remaining_treasures false;
            Ret (st.1.1, path', st.2)
        end
      else Ret st
  | KEYDOWN space =>
      if space then
        match st.1.2 with
        | [] => Ret st
        | q :: path' => Ret (q, path', st.2)
        end
      else Ret st
  | OTHER_EVENT => Ret st
  end.

Fixpoint handle_events (grid : list (list string)) (treasures : list cell)
  (collected : gset cell) (events : list event) (st : cell * list cell * bool)
  : res (cell * list cell * bool) :=
  match events with
  | [] => Ret st
  | ev :: rest =>
      st' ← handle_event grid treasures collected st ev;
      handle_events grid treasures collected rest st'
  end.

(** The arrow keys (lines 367-372): the first key held down decides. *)
Fixpoint move (grid : list (list string)) (keys : arrow → bool)
  (ds : list (arrow * (Z * Z))) (pos : cell) : res cell :=
  match ds with
  | [] => Ret pos
  | (key, (dr, dc)) :: rest =>
      if keys key then
        let nr := pos.1 + dr in
        let nc := pos.2 + dc in
        if in_bounds grid (nr, nc) then
          tile ← grid_at grid nr nc;
          if negb (String.eqb tile BLOCKED) then Ret (nr, nc) else Ret pos
        else Ret pos
      else move grid keys rest pos
  end.

(** One iteration of the loop (lines 301-372). *)
Definition tick (events : list event) (keys : arrow → bool) (g : game) : res game :=
  tile ← grid_at (game_grid g) (player g).1 (player g).2;
  let collected :=
    if bool_decide (player g ∈ all_treasures g)
    then {[player g]} ∪ collected_treasures g
    else collected_treasures g in
  let health' :=
    if py_in tile TRAPS then health g - 1
    else if py_in tile REWARDS then Z.min (health g + 1) 10
    else health g in
  gt ← (if String.eqb tile "X4"
        then destroy_uncollected (all_treasures g) collected
               (game_grid g) (all_treasures g)
        else Ret (game_grid g, all_treasures g));
  let running' :=
    if (health' <=? 0) || bool_decide (collected = list_to_set gt.2)
    then false else running g in
  st ← handle_events gt.1 gt.2 collected events (player g, path g, running');
  pos ← move gt.1 keys directions st.1.1;
  Ret {| game_grid := gt.1; player := pos; path := st.1.2; running := st.2;
         health := health'; collected_treasures := collected;
         all_treasures := gt.2 |}.

(** The loop, on the inputs of the successive frames. *)
Fixpoint play (frames : list (list event * (arrow → bool))) (g : game) : res game :=
  match frames with
  | [] => Ret g
  | (events, keys) :: rest =>
      if running g then
        g' ← tick events keys g;
        play rest g'
      else Ret g
  end.

(** The state [main] starts from (lines 194-196, 296-298); [treasures]
    is the set of line 196 as Python lists it. *)
Definition new_game (grid : list (list string)) (treasures : list cell) : res game :=
  start ← find_start grid;
  Ret {| game_grid := grid; player := start; path := []; running := true;
         health := 10; collected_treasures := ∅; all_treasures := treasures |}.

(** The cells of the set comprehension of line 196. *)
Definition treasure_cells (grid : list (list string)) (treasures : list cell) : Prop :=
  NoDup treasures ∧
  ∀ p, p ∈ treasures ↔ in_bounds grid p = true ∧ tile_of grid p = TREASURE.

(** The state is well formed. *)
Record game_ok (g : game) : Prop := {
  ok_rect : rectangular (game_grid g);
  ok_player : in_bounds (game_grid g) (player g) = true ∧
              tile_of (game_grid g) (player g) ≠ BLOCKED;
  ok_path : ∀ q, q ∈ path g →
      in_bounds (game_grid g) q = true ∧ tile_of (game_grid g) q ≠ BLOCKED;
  ok_health : health g <= 10;
  ok_collected : ∀ p, p ∈ collected_treasures g → p ∈ all_treasures g;
  ok_treasures : treasure_cells (game_grid g) (all_treasures g)
}.

(** *** Writing a tile *)

Lemma in_bounds_rows grid p :
  in_bounds grid p = true ↔
  0 <= p.1 < ROWS grid ∧ 0 <= p.2 < COLS grid.
Proof. unfold in_bounds. lia. Qed.

Lemma grid_lookup grid r c :
  rectangular grid → in_bounds grid (r, c) = true →
  ∃ row, grid !! Z.to_nat r = Some row ∧ Z.of_nat (length row) = COLS grid ∧
         row !! Z.to_nat c = Some (tile_of grid (r, c)).
Proof.
  intros Hrect Hb. pose proof (grid_at_tile_of grid Hrect r c Hb) as Hat.
  apply in_bounds_rows in Hb as [Hr Hc]. simpl in *. unfold ROWS in Hr.
  destruct (grid !! Z.to_nat r) as [row|] eqn:Hrow;
    [|apply lookup_ge_None in Hrow; lia].
  assert (Hlen : Z.of_nat (length row) = COLS grid).
  { eapply (proj1 (Forall_forall _ _) Hrect), list_elem_of_lookup_2, Hrow. }
  exists row. split; [done|]. split; [done|].
  unfold grid_at, py_index in Hat.
  destruct (r <? 0) eqn:Hneg; [lia|].
  replace ((0 <=? r) && (r <? Z.of_nat (length grid))) with true in Hat by lia.
  rewrite Hrow in Hat. simpl in Hat.
  destruct (c <? 0) eqn:Hneg'; [lia|].
  replace ((0 <=? c) && (c <? Z.of_nat (length row))) with true in Hat by lia.
  destruct (row !! Z.to_nat c); by simplify_eq.
Qed.

Lemma tile_of_lookup grid r c row x :
  rectangular grid → in_bounds grid (r, c) = true →
  grid !! Z.to_nat r = Some row → row !! Z.to_nat c = Some x →
  tile_of grid (r, c) = x.
Proof.
  intros Hrect Hb Hrow Hx.
  destruct (grid_lookup grid r c Hrect Hb) as (row' & Hrow' & _ & Hx').
  by simplify_eq.
Qed.

(** Writing a tile of the grid changes that tile and nothing else. *)
Lemma grid_set_spec grid r c tile :
  rectangular grid → in_bounds grid (r, c) = true →
  ∃ grid',
    grid_set grid r c tile = Ret grid' ∧ rectangular grid' ∧
    ROWS grid' = ROWS grid ∧ COLS grid' = COLS grid ∧
    ∀ q, in_bounds grid q = true →
         tile_of grid' q = if decide (q = (r, c)) then tile else tile_of grid q.
Proof.
  intros Hrect Hb.
  destruct (grid_lookup grid r c Hrect Hb) as (row & Hrow & Hlen & Hx).
  pose proof Hb as [Hr Hc]%in_bounds_rows. simpl in Hr, Hc. unfold ROWS in Hr.
  set (row' := <[Z.to_nat c := tile]> row).
  set (grid' := <[Z.to_nat r := row']> grid).
  assert (Hrun : grid_set grid r c tile = Ret grid').
  { unfold grid_set, py_index, py_setitem.
    destruct (r <? 0) eqn:Hneg; [lia|].
    replace ((0 <=? r) && (r <? Z.of_nat (length grid))) with true by lia.
    rewrite Hrow. simpl.
    destruct (c <? 0) eqn:Hneg'; [lia|].
    replace ((0 <=? c) && (c <? Z.of_nat (length row))) with true by lia.
    simpl. done. }
  assert (Hrows : ROWS grid' = ROWS grid).
  { unfold ROWS, grid'. by rewrite length_insert. }
  assert (Hcols : COLS grid' = COLS grid).
  { unfold COLS, grid'. destruct grid as [|row0 rows]; [done|].
    destruct (Z.to_nat r) as [|k] eqn:Hk; simpl; [|done].
    simpl in Hrow. simplify_eq. unfold row'. by rewrite length_insert. }
  assert (Hrect' : rectangular grid').
  { unfold rectangular. rewrite Hcols. unfold grid'.
    apply Forall_insert; [exact Hrect|]. unfold row'. by rewrite length_insert. }
  exists grid'. split_and!; try done.
  intros [qr qc] Hq.
  assert (Hq' : in_bounds grid' (qr, qc) = true).
  { apply in_bounds_rows. rewrite Hrows, Hcols. by apply in_bounds_rows. }
  destruct (grid_lookup grid qr qc Hrect Hq) as (qrow & Hqrow & Hqlen & Hqx).
  pose proof Hq as [Hqr Hqc]%in_bounds_rows. simpl in Hqr, Hqc.
  destruct (decide (qr = r)) as [->|Hne].
  - simplify_eq. eapply (tile_of_lookup grid'); try done.
    + unfold grid'. apply list_lookup_insert_eq. by eapply lookup_lt_Some.
    + unfold row'. destruct (decide (qc = c)) as [->|Hnec].
      * rewrite decide_True by done. apply list_lookup_insert_eq. lia.
      * rewrite decide_False by congruence.
        rewrite list_lookup_insert_ne by lia. done.
  - rewrite decide_False by congruence.
    eapply (tile_of_lookup grid'); try done.
    unfold grid'. rewrite list_lookup_insert_ne by lia. done.
Qed.

Lemma in_bounds_same grid grid' q :
  ROWS grid' = ROWS grid → COLS grid' = COLS grid →
  in_bounds grid' q = in_bounds grid q.
Proof. unfold in_bounds. by intros -> ->. Qed.

(** *** The steps of a frame *)

Lemma treasure_not_blocked : TREASURE ≠ BLOCKED ∧ EMPTY ≠ BLOCKED ∧ EMPTY ≠ TREASURE.
Proof. done. Qed.

Lemma destroy_uncollected_spec todo collected grid treasures :
  rectangular grid → treasure_cells grid treasures →
  NoDup todo → (∀ p, p ∈ todo → p ∈ treasures) →
  ∃ grid' treasures',
    destroy_uncollected todo collected grid treasures = Ret (grid', treasures') ∧
    rectangular grid' ∧ ROWS grid' = ROWS grid ∧ COLS grid' = COLS grid ∧
    treasure_cells grid' treasures' ∧
    (∀ p, p ∈ treasures' ↔ p ∈ treasures ∧ (p ∈ collected ∨ p ∉ todo)) ∧
    (∀ q, in_bounds grid q = true →
          tile_of grid' q =
          if decide (q ∈ todo ∧ q ∉ collected) then EMPTY else tile_of grid q).
Proof.
  revert grid treasures.
  induction todo as [|p rest IH]; intros grid treasures Hrect Htc Hnd Hsub.
  - exists grid, treasures. split_and!; try done.
    intros p. split; [|tauto]. intros ?. split; [done|]. right. apply not_elem_of_nil.
  - apply NoDup_cons in Hnd as [Hp Hnd]. cbn [destroy_uncollected].
    case_bool_decide as Hcoll.
    + destruct (IH grid treasures) as (grid' & treasures' & Hrun & ? & ? & ? & ? & Hmem & Htile);
        try done.
      { intros q Hq. apply Hsub. by right. }
      exists grid', treasures'. split_and!; try done.
      * intros q. rewrite Hmem, elem_of_cons. split; [|tauto].
        intros [? [?|?]]; split; try done; [by left|].
        destruct (decide (q = p)) as [->|?]; [by left|right; tauto].
      * intros q Hq. rewrite (Htile q Hq).
        repeat case_decide; try done; exfalso; set_solver.
    + assert (Hpt : p ∈ treasures) by (apply Hsub; by left).
      destruct Htc as [Hndt Htc]. pose proof (proj1 (Htc p) Hpt) as [Hpb Hptile].
      destruct p as [pr pc].
      destruct (grid_set_spec grid pr pc EMPTY Hrect Hpb)
        as (grid1 & Hset & Hrect1 & Hrows1 & Hcols1 & Htile1).
      cbn [fst snd]. rewrite Hset. cbn [mbind res_bind]. unfold set_remove.
      rewrite bool_decide_eq_true_2 by done. cbn [mbind res_bind].
      set (treasures1 := filter (λ q, q ≠ (pr, pc)) treasures).
      assert (Htc1 : treasure_cells grid1 treasures1).
      { split; [by apply NoDup_filter|]. intros q. unfold treasures1.
        rewrite list_elem_of_filter, Htc, (in_bounds_same grid grid1) by done.
        split.
        - intros (Hne & Hq & Hqt). split; [done|].
          rewrite (Htile1 q Hq). by rewrite decide_False.
        - intros [Hq Hqt]. rewrite (Htile1 q Hq) in Hqt.
          case_decide; [done|]. done. }
      destruct (IH grid1 treasures1)
        as (grid' & treasures' & Hrun & ? & Hrows' & Hcols' & ? & Hmem & Htile);
        try done.
      { intros q Hq. unfold treasures1. apply list_elem_of_filter. split.
        - intros ->. done.
        - apply Hsub. by right. }
      exists grid', treasures'. split_and!; try done; try congruence.
      * intros q. rewrite Hmem. unfold treasures1.
        rewrite list_elem_of_filter, elem_of_cons. split.
        -- intros [[Hne Hq] Hor]. split; [done|]. destruct Hor; [by left|right].
           intros [?|?]; done.
        -- intros [Hq Hor]. destruct Hor as [Hc|Hn].
           ++ split; [|by left]. split; [|done]. intros ->. done.
           ++ split; [|right; intros ?; apply Hn; by right].
              split; [|done]. intros ->. apply Hn. by left.
      * intros q Hq. rewrite Htile by (by rewrite (in_bounds_same grid grid1)).
        rewrite (Htile1 q Hq).
        repeat case_decide; try done; exfalso; set_solver.
Qed.

Lemma move_passable grid keys ds pos :
  rectangular grid → passable grid pos = true →
  ∃ pos', move grid keys ds pos = Ret pos' ∧ passable grid pos' = true.
Proof.
  intros Hrect Hpos. induction ds as [|[key [dr dc]] rest IH]; [by exists pos|].
  cbn [move]. destruct (keys key); [|done].
  destruct (in_bounds grid (pos.1 + dr, pos.2 + dc)) eqn:Hb; [|by exists pos].
  rewrite (grid_at_tile_of grid Hrect _ _ Hb). cbn [mbind res_bind].
  destruct (negb _) eqn:Hnb; [|by exists pos].
  eexists. split; [done|]. unfold passable, blocked. by rewrite Hb, Hnb.
Qed.

Lemma handle_events_spec grid treasures collected events st :
  rectangular grid → passable grid st.1.1 = true →
  (∀ q, q ∈ st.1.2 → passable grid q = true) →
  ∃ st',
    handle_events grid treasures collected events st = Ret st' ∧
    passable grid st'.1.1 = true ∧
    (∀ q, q ∈ st'.1.2 → passable grid q = true) ∧
    (st'.2 = true ↔ st.2 = true ∧ QUIT ∉ events).
Proof.
  intros Hrect. revert st.
  induction events as [|ev rest IH]; intros [[pos pth] run] Hpos Hpth.
  - eexists. split; [done|]. split_and!; try done. simpl.
    split; [|tauto]. intros ?. split; [done|apply not_elem_of_nil].
  - cbn [handle_events]. simpl in Hpos, Hpth.
    assert (∃ st1, handle_event grid treasures collected (pos, pth, run) ev = Ret st1 ∧
              passable grid st1.1.1 = true ∧
              (∀ q, q ∈ st1.1.2 → passable grid q = true) ∧
              (st1.2 = true ↔ run = true ∧ ev ≠ QUIT)) as (st1 & Hrun1 & Hp1 & Hq1 & Hr1).
    { destruct ev as [|[]|[]|]; simpl.
      - eexists. split; [done|]. split_and!; try done. simpl. split; [done|tauto].
      - destruct (filter _ treasures) as [|t remaining] eqn:Hrem.
        + eexists. split; [done|]. split_and!; try done. simpl. split; [done|tauto].
        + destruct (find_best_treasure_path_passable grid Hrect pos (t :: remaining) false)
            as (best & Hbest & Hpass).
          rewrite Hbest. simpl. eexists. split; [done|]. split_and!; try done.
          simpl. split; [done|tauto].
      - eexists. split; [done|]. split_and!; try done. simpl. split; [done|tauto].
      - destruct pth as [|q pth'].
        + eexists. split; [done|]. split_and!; try done. simpl. split; [done|tauto].
        + eexists. split; [done|]. simpl. split_and!.
          * apply Hpth. by left.
          * intros q' Hq'. apply Hpth. by right.
          * split; [done|tauto].
      - eexists. split; [done|]. split_and!; try done. simpl. split; [done|tauto].
      - eexists. split; [done|]. split_and!; try done. simpl. split; [done|tauto]. }
    rewrite Hrun1. cbn [mbind res_bind].
    destruct (IH st1 Hp1 Hq1) as (st' & Hrun' & Hp' & Hq' & Hr').
    exists st'. split; [done|]. split_and!; try done.
    rewrite Hr', Hr1. simpl. rewrite not_elem_of_cons. intuition congruence.
Qed.

(** *** One frame *)

Lemma tick_spec events keys g :
  game_ok g →
  ∃ g',
    tick events keys g = Ret g' ∧ game_ok g' ∧
    (running g' = true ↔
     running g = true ∧ 0 < health g' ∧
     collected_treasures g' ≠ list_to_set (all_treasures g') ∧ QUIT ∉ events) ∧
    (tile_of (game_grid g) (player g) = "X4"%string →
     (∀ p, p ∈ all_treasures g' ↔ p ∈ collected_treasures g') ∧
     (∀ p, p ∈ all_treasures g → p ∉ collected_treasures g' →
           tile_of (game_grid g') p = EMPTY)) ∧
    (∀ p, p ∈ collected_treasures g → p ∈ collected_treasures g') ∧
    (∀ p, p ∈ all_treasures g' → p ∈ all_treasures g) ∧
    (∀ q, in_bounds (game_grid g) q = true →
          tile_of (game_grid g') q = tile_of (game_grid g) q ∨
          (tile_of (game_grid g) q = TREASURE ∧ tile_of (game_grid g') q = EMPTY ∧
           q ∉ collected_treasures g')) ∧
    health g - 1 <= health g' <= health g + 1.
Proof.
  destruct g as [grid pos pth run hp coll treasures].
  intros [Hrect [Hpb Hpt] Hpath Hhealth Hcoll Htc]. unfold tick.
  cbn [game_grid player path running health collected_treasures all_treasures] in *.
  destruct pos as [pr pc]. cbn [fst snd].
  rewrite (grid_at_tile_of grid Hrect _ _ Hpb). cbn [mbind res_bind].
  set (tile := tile_of grid (pr, pc)) in *.
  set (coll' := if bool_decide ((pr, pc) ∈ treasures)
                then {[(pr, pc)]} ∪ coll else coll).
  set (hp' := if py_in tile TRAPS then hp - 1
              else if py_in tile REWARDS then Z.min (hp + 1) 10 else hp).
  assert (Hcoll' : ∀ p, p ∈ coll' → p ∈ treasures).
  { intros p. unfold coll'. case_bool_decide; [|apply Hcoll].
    intros [->%elem_of_singleton|?]%elem_of_union; auto. }
  assert (Hhp' : hp' <= 10 ∧ hp - 1 <= hp' <= hp + 1).
  { unfold hp'. destruct (py_in tile TRAPS), (py_in tile REWARDS); lia. }
  assert (Hgrow : ∀ p, p ∈ coll → p ∈ coll').
  { intros p Hp. unfold coll'. case_bool_decide; [|done]. apply elem_of_union. by right. }
  assert (∃ grid' treasures',
            (if String.eqb tile "X4"
             then destroy_uncollected treasures coll' grid treasures
             else Ret (grid, treasures)) = Ret (grid', treasures') ∧
            rectangular grid' ∧ ROWS grid' = ROWS grid ∧ COLS grid' = COLS grid ∧
            treasure_cells grid' treasures' ∧
            (∀ p, p ∈ coll' → p ∈ treasures') ∧
            (∀ q, in_bounds grid q = true → tile_of grid q ≠ BLOCKED →
                  tile_of grid' q ≠ BLOCKED) ∧
            (tile = "X4"%string →
             (∀ p, p ∈ treasures' ↔ p ∈ coll') ∧
             (∀ p, p ∈ treasures → p ∉ coll' → tile_of grid' p = EMPTY)) ∧
            (∀ p, p ∈ treasures' → p ∈ treasures) ∧
            (∀ q, in_bounds grid q = true →
                  tile_of grid' q = tile_of grid q ∨
                  (tile_of grid q = TREASURE ∧ tile_of grid' q = EMPTY ∧ q ∉ coll')))
    as (grid' & treasures' & -> & Hrect' & Hrows & Hcols & Htc' & Hcoll'' & Hnb & Hx4
        & Hshrink & Htiles).
  { destruct (String.eqb_spec tile "X4") as [Hx|Hx].
    - destruct (destroy_uncollected_spec treasures coll' grid treasures)
        as (grid' & treasures' & Hrun & ? & ? & ? & ? & Hmem & Htile);
        [done|done|apply Htc|done|].
      exists grid', treasures'. split_and!; try done.
      + intros p Hp. apply Hmem. auto.
      + intros q Hq Hqt. rewrite (Htile q Hq). by case_decide.
      + intros _. split.
        * intros p. rewrite Hmem. split; [|by auto].
          intros [Hp [?|?]]; done.
        * intros p Hp Hnc. rewrite Htile by (by apply (proj2 Htc p)).
          by rewrite decide_True.
      + intros p Hp. by apply Hmem in Hp as [? _].
      + intros q Hq. rewrite (Htile q Hq). case_decide as Hdec; [|by left].
        right. destruct Hdec as [Hqt Hqc]. split_and!; try done.
        by apply (proj2 Htc q).
    - exists grid, treasures. split_and!; try done. intros q _. by left. }
  cbn [mbind res_bind fst snd].
  set (run' := if (hp' <=? 0) || bool_decide (coll' = list_to_set treasures')
               then false else run).
  assert (Hpass : ∀ q, in_bounds grid q = true → tile_of grid q ≠ BLOCKED →
                       passable grid' q = true).
  { intros q Hq Hqt. apply passable_spec. split; [|by apply Hnb].
    by rewrite (in_bounds_same grid grid'). }
  destruct (handle_events_spec grid' treasures' coll' events ((pr, pc), pth, run'))
    as ([[pos1 pth1] run1] & -> & Hpos1 & Hpth1 & Hrun1); [done|by apply Hpass|..].
  { intros q Hq. apply Hpass; by apply Hpath. }
  cbn [mbind res_bind fst snd] in *.
  destruct (move_passable grid' keys directions pos1 Hrect' Hpos1) as (pos2 & -> & Hpos2).
  cbn [mbind res_bind].
  eexists. split; [done|]. split_and!.
  - split; simpl; try done.
    + by apply passable_spec.
    + intros q Hq. by apply passable_spec, Hpth1.
    + lia.
  - simpl. rewrite Hrun1. unfold run'.
    destruct (hp' <=? 0) eqn:Hle; simpl; [intuition (try done; lia)|].
    case_bool_decide; [intuition done|]. intuition (try done; lia).
  - simpl. intros Hx. by apply Hx4.
  - done.
  - done.
  - done.
  - simpl. lia.
  - simpl. lia.
Qed.

(** *** The game *)

Lemma play_spec frames g :
  game_ok g → ∃ g', play frames g = Ret g' ∧ game_ok g'.
Proof.
  revert g. induction frames as [|[events keys] rest IH]; intros g Hok.
  - by exists g.
  - cbn [play]. destruct (running g); [|by exists g].
    destruct (tick_spec events keys g Hok) as (g1 & -> & Hok1 & _).
    cbn [mbind res_bind]. by apply IH.
Qed.

Lemma new_game_spec grid treasures :
  rectangular grid → treasure_cells grid treasures →
  (∃ q, in_bounds grid q = true ∧ tile_of grid q = START) →
  ∃ g, new_game grid treasures = Ret g ∧ game_ok g.
Proof.
  intros Hrect Htc (q & Hq & Hqt). unfold new_game, find_start.
  assert (HR : 0 <= ROWS grid) by (unfold ROWS; lia).
  destruct (find_start_rows_spec grid Hrect 0 (ROWS grid)) as (p & -> & Hp); try lia.
  cbn [mbind res_bind]. eexists. split; [done|].
  destruct Hp as [(Hb & _ & Htile & _)|[_ Hnone]].
  - split; simpl; try done.
    all: try (split; [done|]; by rewrite Htile).
    all: try (by intros ? ?%elem_of_nil).
    all: try (by intros ? ?%elem_of_empty).
  - destruct (Hnone q Hq); [|done]. apply in_bounds_rows in Hq. lia.
Qed.

(** X12: on a rectangular grid with a start tile, the game loop of
    [main] raises nothing, whatever the events and the keys of the
    successive frames: the player and the cells of the planned path stay
    in bounds and off the blocked tiles, the health never exceeds 10, the
    collected treasures are treasures of the grid, and [all_treasures]
    stays the set of the cells that hold a treasure tile. *)
Theorem play_safe (grid : list (list string)) (treasures : list cell)
  (frames : list (list event * (arrow → bool))) :
  rectangular grid → treasure_cells grid treasures →
  (∃ q, in_bounds grid q = true ∧ tile_of grid q = START) →
  ∃ g0 g,
    new_game grid treasures = Ret g0 ∧ play frames g0 = Ret g ∧
    rectangular (game_grid g) ∧
    in_bounds (game_grid g) (player g) = true ∧
    tile_of (game_grid g) (player g) ≠ BLOCKED ∧
    (∀ q, q ∈ path g →
          in_bounds (game_grid g) q = true ∧ tile_of (game_grid g) q ≠ BLOCKED) ∧
    health g <= 10 ∧
    (∀ p, p ∈ collected_treasures g → p ∈ all_treasures g) ∧
    (∀ p, p ∈ all_treasures g ↔
          in_bounds (game_grid g) p = true ∧ tile_of (game_grid g) p = TREASURE).
Proof.
  intros Hrect Htc Hstart.
  destruct (new_game_spec grid treasures Hrect Htc Hstart) as (g0 & Hnew & Hok0).
  destruct (play_spec frames g0 Hok0) as (g & Hplay & [? [? ?] ? ? ? [? ?]]).
  exists g0, g. by split_and!.
Qed.

(** X13: a frame that starts with the player on the trap 'X4' ends the
    game: every treasure not collected is taken off the grid (its tile
    becomes empty) and out of [all_treasures], which leaves the collected
    ones, so that [running] is false after the frame. *)
Theorem tick_x4_ends (events : list event) (keys : arrow → bool) (g : game) :
  game_ok g → tile_of (game_grid g) (player g) = "X4"%string →
  ∃ g',
    tick events keys g = Ret g' ∧ running g' = false ∧
    (∀ p, p ∈ all_treasures g' ↔ p ∈ collected_treasures g') ∧
    (∀ p, p ∈ all_treasures g → p ∉ collected_treasures g' →
          tile_of (game_grid g') p = EMPTY).
Proof.
  intros Hok Hx.
  destruct (tick_spec events keys g Hok) as (g' & Hrun & _ & Hrunning & Hx4 & _).
  destruct (Hx4 Hx) as [Hall Hgone]. exists g'. split_and!; try done.
  destruct (running g') eqn:Hr; [|done].
  destruct (proj1 Hrunning eq_refl) as (_ & _ & Hne & _). destruct Hne.
  apply set_eq. intros p. by rewrite elem_of_list_to_set, Hall.
Qed.

(** X14: after a frame the game goes on exactly when it was going on, the
    health is still positive, some treasure of [all_treasures] is not
    collected, and no QUIT event came in the frame. *)
Theorem tick_running (events : list event) (keys : arrow → bool) (g : game) :
  game_ok g →
  ∃ g',
    tick events keys g = Ret g' ∧
    (running g' = true ↔
     running g = true ∧ 0 < health g' ∧
     (∃ p, p ∈ all_treasures g' ∧ p ∉ collected_treasures g') ∧
     QUIT ∉ events).
Proof.
  intros Hok.
  destruct (tick_spec events keys g Hok) as (g' & Hrun & Hok' & Hrunning & _).
  exists g'. split; [done|]. rewrite Hrunning.
  assert (collected_treasures g' ≠ list_to_set (all_treasures g') ↔
          ∃ p, p ∈ all_treasures g' ∧ p ∉ collected_treasures g') as ->; [|done].
  split.
  - intros Hne.
    destruct (decide (Forall (λ p, p ∈ collected_treasures g') (all_treasures g')))
      as [Hall|Hex].
    + destruct Hne. apply set_eq. intros p. rewrite elem_of_list_to_set.
      split; [apply (ok_collected _ Hok')|]. by apply (proj1 (Forall_forall _ _) Hall).
    + apply not_Forall_Exists, Exists_exists in Hex; [done|apply _].
  - intros (p & Hp & Hnp) Heq. apply Hnp. rewrite Heq. by apply elem_of_list_to_set.
Qed.

(** X15: in a frame the collected treasures only grow and
    [all_treasures] only shrinks; a tile of the grid changes only from an
    uncollected treasure to the empty tile, so the frame makes no blocked
    tile and removes none; the health moves by at most one. *)
Theorem tick_monotone (events : list event) (keys : arrow → bool) (g : game) :
  game_ok g →
  ∃ g',
    tick events keys g = Ret g' ∧
    (∀ p, p ∈ collected_treasures g → p ∈ collected_treasures g') ∧
    (∀ p, p ∈ all_treasures g' → p ∈ all_treasures g) ∧
    (∀ q, in_bounds (game_grid g) q = true →
          tile_of (game_grid g') q = tile_of (game_grid g) q ∨
          (tile_of (game_grid g) q = TREASURE ∧ tile_of (game_grid g') q = EMPTY ∧
           q ∉ collected_treasures g')) ∧
    health g - 1 <= health g' <= health g + 1.
Proof.
  intros Hok.
  destruct (tick_spec events keys g Hok) as (g' & Hrun & _ & _ & _ & ? & ? & ? & ?).
  exists g'. split; [done|]. split; [done|]. split; [done|]. split; done.
Qed.

(** ** The grid of [map.py] (lines 16-24) *)

Definition map_grid : list (list string) :=
  [ [EMPTY; EMPTY; EMPTY; EMPTY; EMPTY; EMPTY; EMPTY; EMPTY; EMPTY; EMPTY];
    ["S"; "X2"; EMPTY; "X4"; "R1"; EMPTY; EMPTY; EMPTY; EMPTY; EMPTY];
    [EMPTY; EMPTY; EMPTY; EMPTY; "T"; EMPTY; "X3"; "R2"; "#"; EMPTY];
    [EMPTY; "R1"; "#"; "#"; "#"; "X3"; EMPTY; "T"; "X1"; "T"];
    ["#"; EMPTY; EMPTY; "T"; EMPTY; EMPTY; "#"; "#"; EMPTY; EMPTY];
    [EMPTY; EMPTY; "X2"; EMPTY; "#"; "R2"; "#"; EMPTY; EMPTY; EMPTY];
    [EMPTY; EMPTY; EMPTY; EMPTY; EMPTY; EMPTY; EMPTY; EMPTY; EMPTY; EMPTY] ]%string.

(** ** The theorems on concrete grids *)

Lemma map_grid_rectangular : rectangular map_grid.
Proof. unfold rectangular. repeat constructor. Qed.

(** A grid without the traps 'X3' and 'X4'. *)
Definition plain_grid : list (list string) :=
  [ ["S"; "X1"; EMPTY];
    [EMPTY; "#"; "R1"];
    ["X2"; EMPTY; "T"] ]%string.

Lemma ucs_optimal_witness :
  rectangular map_grid ∧ reachable map_grid (1, 0) (2, 4) ∧
  ∃ path c,
    ucs map_grid (1, 0) (2, 4) = Ret (path, Finite c) ∧
    leads map_grid (1, 0) (2, 4) path ∧
    c = path_cost map_grid step_cost path ∧
    (∀ tile, step_cost tile =
             if bool_decide (tile ∈ TRAPS) then 4
             else if bool_decide (tile ∈ REWARDS) then 1 else 2) ∧
    (∀ path', leads map_grid (1, 0) (2, 4) path' →
              ¬ path_cost map_grid step_cost path' < c).
Proof.
  assert (Hreach : reachable map_grid (1, 0) (2, 4)).
  { exists [(1, 1); (1, 2); (1, 3); (1, 4); (2, 4)]. split; vm_compute; reflexivity. }
  split; [apply map_grid_rectangular|]. split; [exact Hreach|].
  apply (ucs_optimal map_grid map_grid_rectangular (1, 0) (2, 4) Hreach).
Defined.

Lemma find_best_treasure_path_best_witness :
  [(2, 4); (4, 3)] ≠ @nil cell ∧
  ∃ best, find_best_treasure_path map_grid (1, 0) [(2, 4); (4, 3)] false = Ret best.
Proof.
  assert (Hne : [(2, 4); (4, 3)] ≠ @nil cell) by discriminate.
  split; [exact Hne|].
  destruct (find_best_treasure_path_best map_grid map_grid_rectangular
              (1, 0) [(2, 4); (4, 3)] false Hne) as (_ & _ & _ & best & Hbest & _).
  by exists best.
Defined.

Lemma get_neighbors_symmetric_witness :
  ∃ la lb, get_neighbors map_grid (1, 0) = Ret la ∧
           get_neighbors map_grid (0, 1) = Ret lb ∧
           ((0, 1) ∈ la ↔ (1, 0) ∈ lb).
Proof.
  apply (get_neighbors_symmetric map_grid map_grid_rectangular (1, 0) (0, 1));
    vm_compute; congruence.
Defined.

Lemma get_neighbors_hex_rule_witness :
  ∃ l, get_neighbors map_grid (3, 1) = Ret l ∧
       l = filter (λ q, in_bounds map_grid q = true ∧ tile_of map_grid q ≠ BLOCKED)
             (hex_candidates (3, 1)) ∧
       (∀ q, q ∈ l ↔ q ∈ hex_candidates (3, 1) ∧
                     in_bounds map_grid q = true ∧ tile_of map_grid q ≠ BLOCKED) ∧
       (length l ≤ 6)%nat.
Proof. apply (get_neighbors_hex_rule map_grid map_grid_rectangular (3, 1)). Defined.

(** The claim C5 as the specification states it fails where the goal is
    the start and is blocked: the search answers with cost 0. *)
Lemma ucs_blocked_start_counterexample :
  blocked map_grid (2, 8) = true ∧
  ucs map_grid (2, 8) (2, 8) = Ret ([], Finite 0) ∧
  ¬ (∀ start goal,
       blocked map_grid goal = true ∨ ¬ reachable map_grid start goal →
       ucs map_grid start goal = Ret ([], Infinity)).
Proof.
  split; [reflexivity|]. split; [vm_compute; reflexivity|].
  intros H. specialize (H (2, 8) (2, 8) (or_introl eq_refl)).
  vm_compute in H. discriminate H.
Qed.

Lemma ucs_unreachable_witness :
  (2, 8) ≠ (1, 0) ∧
  (blocked map_grid (2, 8) = true ∨ ¬ reachable map_grid (1, 0) (2, 8)) ∧
  ucs map_grid (1, 0) (2, 8) = Ret ([], Infinity).
Proof.
  assert (Hne : (2, 8) ≠ (1, 0)) by discriminate.
  assert (Hb : blocked map_grid (2, 8) = true) by reflexivity.
  split; [exact Hne|]. split; [by left|].
  apply (ucs_unreachable map_grid map_grid_rectangular (1, 0) (2, 8) Hne (or_introl Hb)).
Defined.

Lemma find_best_treasure_path_stay_witness :
  List.last [] (1, 0) = (1, 0) ∧
  ucs map_grid (1, 0) (1, 0) = Ret ([], Finite 0) ∧
  try_order (ucs map_grid) (1, 0) false ([] ++ (1, 0) :: [(2, 4)]) = Ret None ∧
  find_best_treasure_path map_grid (1, 0) [(1, 0)] false = Ret [].
Proof.
  split; [reflexivity|].
  apply (find_best_treasure_path_stay map_grid map_grid_rectangular
           (1, 0) (1, 0) [] [(2, 4)] false eq_refl).
Defined.

Lemma plain_grid_no_x3_x4 : no_x3_x4 plain_grid.
Proof. apply (bool_decide_unpack _). vm_compute. exact I. Qed.

Lemma ucs_search_agrees_witness :
  no_x3_x4 plain_grid ∧
  ∀ start goal, ucs_search plain_grid start goal = ucs plain_grid start goal.
Proof.
  split; [apply plain_grid_no_x3_x4|].
  apply (ucs_search_agrees plain_grid plain_grid_no_x3_x4).
Defined.

(** ** The further theorems on concrete grids *)

Lemma in_bounds_cells grid p :
  in_bounds grid p = true → p ∈ list_prod (seqZ 0 (ROWS grid)) (seqZ 0 (COLS grid)).
Proof.
  intros [Hr Hc]%in_bounds_rows. destruct p as [r c].
  apply list_elem_of_In, in_prod_iff.
  rewrite <- !list_elem_of_In, !elem_of_seqZ. simpl in *. lia.
Qed.

(** A listing can be checked cell by cell. *)
Lemma treasure_cells_check grid l :
  NoDup l →
  Forall (λ p, in_bounds grid p = true ∧ tile_of grid p = TREASURE) l →
  Forall (λ p, tile_of grid p = TREASURE → p ∈ l)
         (list_prod (seqZ 0 (ROWS grid)) (seqZ 0 (COLS grid))) →
  treasure_cells grid l.
Proof.
  intros Hnd Hin Hall. split; [done|]. intros p. split.
  - by apply (proj1 (Forall_forall _ _) Hin).
  - intros [Hb Ht]. by apply (proj1 (Forall_forall _ _) Hall p (in_bounds_cells _ _ Hb)).
Qed.

(** The treasures of the grid of [map.py]. *)
Definition map_treasures : list cell := [(2, 4); (3, 7); (3, 9); (4, 3)].

Lemma map_treasures_cells : treasure_cells map_grid map_treasures.
Proof.
  apply treasure_cells_check; apply (bool_decide_unpack _); vm_compute; exact I.
Qed.

Lemma map_grid_start : ∃ q, in_bounds map_grid q = true ∧ tile_of map_grid q = START.
Proof. by exists (1, 0). Qed.

Lemma map_grid_reach_2_4 : reachable map_grid (1, 0) (2, 4).
Proof. exists [(1, 1); (1, 2); (1, 3); (1, 4); (2, 4)]. split; vm_compute; reflexivity. Qed.

(** The player on the trap 'X4' of the grid of [map.py]. *)
Definition x4_game : game :=
  {| game_grid := map_grid; player := (1, 3); path := []; running := true;
     health := 10; collected_treasures := ∅; all_treasures := map_treasures |}.

Lemma x4_game_ok : game_ok x4_game.
Proof.
  split; simpl.
  - apply map_grid_rectangular.
  - split; [reflexivity|]. vm_compute. congruence.
  - by intros q ?%elem_of_nil.
  - lia.
  - by intros p ?%elem_of_empty.
  - apply map_treasures_cells.
Qed.

Lemma ucs_path_well_formed_witness :
  ∃ path c,
    ucs map_grid (1, 0) (3, 9) = Ret (path, c) ∧
    (∀ q, q ∈ path → in_bounds map_grid q = true ∧ tile_of map_grid q ≠ BLOCKED) ∧
    NoDup path ∧ (1, 0) ∉ path ∧
    (path ≠ [] → ∃ z, c = Finite z ∧
                      Z.of_nat (length path) <= z <= 4 * Z.of_nat (length path)).
Proof. apply (ucs_path_well_formed map_grid map_grid_rectangular (1, 0) (3, 9)). Defined.

Lemma ucs_path_empty_iff_witness :
  ∃ path c,
    ucs map_grid (1, 0) (2, 8) = Ret (path, c) ∧
    (path = [] ↔ (2, 8) = (1, 0) ∨ ¬ reachable map_grid (1, 0) (2, 8)) ∧
    (path ≠ [] → List.last path (1, 0) = (2, 8) ∧ is_walk map_grid (1, 0) path = true).
Proof. apply (ucs_path_empty_iff map_grid map_grid_rectangular (1, 0) (2, 8)). Defined.

Lemma ucs_search_optimal_witness :
  (∃ path c,
     ucs_search map_grid (1, 0) (3, 9) = Ret (path, Finite c) ∧
     leads map_grid (1, 0) (3, 9) path ∧
     c = path_cost map_grid step_cost_search path ∧
     ∀ path', leads map_grid (1, 0) (3, 9) path' →
              c <= path_cost map_grid step_cost_search path') ∨
  (ucs_search map_grid (1, 0) (3, 9) = Ret ([], Infinity) ∧
   ¬ reachable map_grid (1, 0) (3, 9)).
Proof. apply (ucs_search_optimal map_grid map_grid_rectangular (1, 0) (3, 9)). Defined.

Lemma ucs_two_way_witness :
  ∃ path' z, ucs map_grid (2, 4) (1, 0) = Ret (path', Finite z) ∧ path' ≠ [] ∧
             leads map_grid (2, 4) (1, 0) path'.
Proof.
  apply (ucs_two_way map_grid map_grid_rectangular (1, 0) (2, 4)
           eq_refl ltac:(vm_compute; congruence) ltac:(congruence)
           [(0, 1); (0, 2); (0, 3); (1, 4); (2, 4)] (Finite 9)
           ltac:(vm_compute; reflexivity) ltac:(congruence)).
Defined.

Lemma get_neighbors_distinct_witness :
  ∃ l, get_neighbors map_grid (3, 1) = Ret l ∧ NoDup l ∧ (3, 1) ∉ l ∧
       ∀ q, q ∈ l → -1 <= q.1 - 3 <= 1 ∧ -1 <= q.2 - 1 <= 1.
Proof. apply (get_neighbors_distinct map_grid map_grid_rectangular (3, 1)). Defined.

Lemma find_best_treasure_path_covers_witness :
  ∃ best,
    find_best_treasure_path map_grid (1, 0) [(2, 4); (4, 3)] true = Ret best ∧
    (best ≠ [] →
     is_walk map_grid (1, 0) best = true ∧
     (∀ q, q ∈ best → in_bounds map_grid q = true ∧ tile_of map_grid q ≠ BLOCKED) ∧
     (∀ t, t ∈ [(2, 4); (4, 3)] → t ∈ best) ∧
     (true = true → List.last best (1, 0) = (1, 0)) ∧
     (true = false → List.last best (1, 0) ∈ [(2, 4); (4, 3)])).
Proof.
  apply (find_best_treasure_path_covers map_grid map_grid_rectangular
           (1, 0) [(2, 4); (4, 3)] true).
Defined.

Lemma find_best_treasure_path_finds_witness :
  ∃ best, find_best_treasure_path map_grid (1, 0) [(2, 4)] false = Ret best ∧ best ≠ [].
Proof.
  apply (find_best_treasure_path_finds map_grid map_grid_rectangular (1, 0) [(2, 4)] false).
  - reflexivity.
  - vm_compute. congruence.
  - congruence.
  - apply NoDup_singleton.
  - intros [=]%list_elem_of_singleton.
  - intros t ->%list_elem_of_singleton. apply map_grid_reach_2_4.
Defined.

Lemma find_best_treasure_path_listing_witness :
  ∃ best best',
    find_best_treasure_path map_grid (1, 0) [(2, 4); (4, 3)] false = Ret best ∧
    find_best_treasure_path map_grid (1, 0) [(4, 3); (2, 4)] false = Ret best' ∧
    path_cost map_grid step_cost best = path_cost map_grid step_cost best' ∧
    (best = [] ↔ best' = []).
Proof.
  apply (find_best_treasure_path_listing map_grid map_grid_rectangular (1, 0)
           [(2, 4); (4, 3)] [(4, 3); (2, 4)] false (Permutation_swap _ _ _)).
Defined.

Lemma find_best_treasure_path_search_agrees_witness :
  find_best_treasure_path_search plain_grid (0, 0) [(2, 2)] =
  find_best_treasure_path plain_grid (0, 0) [(2, 2)] false.
Proof.
  apply (find_best_treasure_path_search_agrees plain_grid (0, 0) [(2, 2)]
           plain_grid_no_x3_x4).
Defined.

Lemma find_start_first_witness :
  ∃ p,
    find_start map_grid = Ret p ∧
    ((in_bounds map_grid p = true ∧ tile_of map_grid p = START ∧
      ∀ q, in_bounds map_grid q = true → tile_of map_grid q = START →
           p.1 < q.1 ∨ (p.1 = q.1 ∧ p.2 <= q.2)) ∨
     (p = (0, 0) ∧ ∀ q, in_bounds map_grid q = true → tile_of map_grid q ≠ START)).
Proof. apply (find_start_first map_grid map_grid_rectangular). Defined.

Lemma play_safe_witness :
  ∃ g0 g,
    new_game map_grid map_treasures = Ret g0 ∧
    play [([MOUSEBUTTONDOWN true], λ _, false); ([KEYDOWN true], λ _, true)] g0 = Ret g ∧
    rectangular (game_grid g) ∧
    in_bounds (game_grid g) (player g) = true ∧
    tile_of (game_grid g) (player g) ≠ BLOCKED ∧
    (∀ q, q ∈ path g →
          in_bounds (game_grid g) q = true ∧ tile_of (game_grid g) q ≠ BLOCKED) ∧
    health g <= 10 ∧
    (∀ p, p ∈ collected_treasures g → p ∈ all_treasures g) ∧
    (∀ p, p ∈ all_treasures g ↔
          in_bounds (game_grid g) p = true ∧ tile_of (game_grid g) p = TREASURE).
Proof.
  apply (play_safe map_grid map_treasures _ map_grid_rectangular
           map_treasures_cells map_grid_start).
Defined.

Lemma tick_x4_ends_witness :
  ∃ g',
    tick [] (λ _, false) x4_game = Ret g' ∧ running g' = false ∧
    (∀ p, p ∈ all_treasures g' ↔ p ∈ collected_treasures g') ∧
    (∀ p, p ∈ all_treasures x4_game → p ∉ collected_treasures g' →
          tile_of (game_grid g') p = EMPTY).
Proof. apply (tick_x4_ends [] (λ _, false) x4_game x4_game_ok eq_refl). Defined.

Lemma tick_running_witness :
  ∃ g',
    tick [QUIT] (λ _, false) x4_game = Ret g' ∧
    (running g' = true ↔
     running x4_game = true ∧ 0 < health g' ∧
     (∃ p, p ∈ all_treasures g' ∧ p ∉ collected_treasures g') ∧
     QUIT ∉ [QUIT]).
Proof. apply (tick_running [QUIT] (λ _, false) x4_game x4_game_ok). Defined.

Lemma tick_monotone_witness :
  ∃ g',
    tick [] (λ _, false) x4_game = Ret g' ∧
    (∀ p, p ∈ collected_treasures x4_game → p ∈ collected_treasures g') ∧
    (∀ p, p ∈ all_treasures g' → p ∈ all_treasures x4_game) ∧
    (∀ q, in_bounds (game_grid x4_game) q = true →
          tile_of (game_grid g') q = tile_of (game_grid x4_game) q ∨
          (tile_of (game_grid x4_game) q = TREASURE ∧
           tile_of (game_grid g') q = EMPTY ∧ q ∉ collected_treasures g')) ∧
    health x4_game - 1 <= health g' <= health x4_game + 1.
Proof. apply (tick_monotone [] (λ _, false) x4_game x4_game_ok). Defined.

Lemma ucs_triangle_witness :
  ∃ p z, ucs map_grid (1, 0) (2, 4) = Ret (p, Finite z) ∧ z <= 4 + 5.
Proof.
  apply (ucs_triangle map_grid map_grid_rectangular (1, 0) (1, 2) (2, 4)
           [(0, 1); (1, 2)] [(0, 3); (1, 4); (2, 4)] 4 5);
    vm_compute; reflexivity.
Defined.

Lemma find_best_treasure_path_return_witness :
  ∃ best_f,
    find_best_treasure_path map_grid (1, 0) [(2, 4)] false = Ret best_f ∧ best_f ≠ [] ∧
    path_cost map_grid step_cost best_f <
    path_cost map_grid step_cost
      [(0, 1); (0, 2); (0, 3); (1, 4); (2, 4); (1, 4); (0, 3); (0, 2); (0, 1); (1, 0)].
Proof.
  apply (find_best_treasure_path_return map_grid map_grid_rectangular (1, 0) [(2, 4)]
           [(0, 1); (0, 2); (0, 3); (1, 4); (2, 4); (1, 4); (0, 3); (0, 2); (0, 1); (1, 0)]);
    [vm_compute; reflexivity|congruence].
Defined.
